(** * Promises for gopherjs: a shallow embedding of [promisify.go]

    The development follows the Go package [promise]: the [Promise]
    state machine ([Then], [Resolve], [Reject], [commit], [flush],
    [wrap]), the dispatcher ([sendSoon], started with [go]) and the
    adapter [Promisify] with its result shaping ([splitResults],
    [desliceOne], [hasLastError]).

    Go's heap is a list of [Promise] records addressed by index, a
    goroutine started with [go] is an entry of a pool that a schedule
    picks from, and a panic is an outcome that carries the panic value
    and keeps the mutations made before it. *)

From Stdlib Require Import ZArith String List Bool Lia DecimalString.
From stdpp Require Import base decidable option list strings.
Import ListNotations.

Local Open Scope string_scope.
Local Open Scope list_scope.
Local Open Scope Z_scope.

(** ** Go values *)

(** A pointer [*Promise]: the index of the record in the heap. *)
Definition loc := nat.
Bind Scope nat_scope with loc.

(** The values that travel through [interface{}]: [nil], an [int], a
    [string], a non-nil [error] with the text its [Error()] method
    returns, a [[]interface{}] and a [*Promise]. *)
#[warnings="-register-all"]
Inductive any : Type :=
| VNil
| VInt (n : Z)
| VStr (s : string)
| VError (msg : string)
| VSlice (vals : list any)
| VPromise (p : loc).

(** Go's [int] (64 bits) with its wrap-around. *)
Definition wrap_int (z : Z) : Z := (z + 2 ^ 63) mod 2 ^ 64 - 2 ^ 63.

(** The result of running Go code: it returns, or it panics with a
    value. *)
Inductive outcome (A : Type) : Type :=
| Ret (a : A)
| Panic (x : any).
Arguments Ret {A} a.
Arguments Panic {A} x.

Definition obind {A B} (o : outcome A) (k : A -> outcome B) : outcome B :=
  match o with
  | Ret a => k a
  | Panic x => Panic x
  end.

Definition is_Ret {A} (o : outcome A) : bool :=
  match o with Ret _ => true | Panic _ => false end.

(** [fmt.Errorf] and the run-time system build error values. *)
Definition nil_dereference : any :=
  VError "runtime error: invalid memory address or nil pointer dereference".

Definition decimal (z : Z) : string := NilZero.string_of_int (Z.to_int z).

(** ** The state of a promise *)

(** [type state int] with [pending], [fulfilled], [rejected] numbered by
    [iota]. *)
Definition state := Z.
Definition pending : state := 0.
Definition fulfilled : state := 1.
Definition rejected : state := 2.

Definition state_String (s : state) : outcome string :=
  if s =? pending then Ret "pending"
  else if s =? fulfilled then Ret "fulfilled"
  else if s =? rejected then Ret "rejected"
  else Panic (VError ("Unknown state: " +:+ decimal s)).

(** What the verb [%s] of [fmt] prints for a [state]: the result of its
    [String] method, or [fmt]'s report of the panic of that method. *)
Definition fmt_s_state (s : state) : string :=
  match state_String s with
  | Ret str => str
  | Panic (VError msg) => "%!s(PANIC=String method: " +:+ msg +:+ ")"
  | Panic _ => "%!s(PANIC=String method: )"
  end.

(** ** Types under reflection *)

(** [reflect.Kind], as far as the adapter meets it. *)
Inductive Kind : Type :=
| Int | String_ | Interface | Ptr | Slice | Struct.

Definition Kind_String (k : Kind) : string :=
  match k with
  | Int => "int" | String_ => "string" | Interface => "interface"
  | Ptr => "ptr" | Slice => "slice" | Struct => "struct"
  end.

(** Go types.  [TError] is the predeclared interface [error], [TEmpty]
    is [interface{}]; [TNamed] is any other declared type, of the given
    kind, whatever its methods. *)
Inductive gotype : Type :=
| TInt
| TString
| TError
| TEmpty
| TNamed (name : string) (k : Kind)
| TPtr (elem : gotype)
| TSlice (elem : gotype).

#[global] Instance Kind_eq_dec : EqDecision Kind.
Proof. solve_decision. Defined.

#[global] Instance gotype_eq_dec : EqDecision gotype.
Proof. solve_decision. Defined.

Definition kind (t : gotype) : Kind :=
  match t with
  | TInt => Int
  | TString => String_
  | TError | TEmpty => Interface
  | TNamed _ k => k
  | TPtr _ => Ptr
  | TSlice _ => Slice
  end.

Fixpoint gotype_String (t : gotype) : string :=
  match t with
  | TInt => "int"
  | TString => "string"
  | TError => "error"
  | TEmpty => "interface {}"
  | TNamed name _ => name
  | TPtr elem => "*" +:+ gotype_String elem
  | TSlice elem => "[]" +:+ gotype_String elem
  end.

(** The dynamic type of a non-nil value. *)
Definition dynamic_type (v : any) : gotype :=
  match v with
  | VNil => TEmpty
  | VInt _ => TInt
  | VStr _ => TString
  | VError _ => TPtr (TNamed "errors.errorString" Struct)
  | VSlice _ => TSlice TEmpty
  | VPromise _ => TPtr (TNamed "promise.Promise" Struct)
  end.

Section Promise.

(** The state of the caller's own program (channels, counters, ...):
    everything a user function may read and write besides the promises. *)
Context {Env : Type}.

(** ** Callbacks *)

(** [type Callback func(value interface{}) interface{}].  A func value is
    [nil], a user function, or one of the two closures that [wrap]
    builds over the child promise and the user's pair. *)
Inductive Callback : Type :=
| Nil
| Fn (f : any -> Env -> outcome any * Env)
| WrapSuccess (p : loc) (success : Callback)
| WrapFailure (p : loc) (failure : Callback).

Definition is_nil (c : Callback) : bool :=
  match c with Nil => true | _ => false end.

Definition undefined : Callback := Fn (fun v e => (Ret v, e)).

Definition safe (c : Callback) : Callback :=
  if negb (is_nil c) then c else undefined.

(** ** Promises, goroutines and the world *)

Record Promise : Type := mkPromise {
  p_state : state;
  p_value : any;
  p_success : list Callback;
  p_failure : list Callback
}.

(** [var p Promise]: every field has its zero value. *)
Definition zero_Promise : Promise :=
  {| p_state := 0; p_value := VNil; p_success := []; p_failure := [] |}.

Definition set_state (s : state) (P : Promise) : Promise :=
  {| p_state := s; p_value := p_value P;
     p_success := p_success P; p_failure := p_failure P |}.
Definition set_value (v : any) (P : Promise) : Promise :=
  {| p_state := p_state P; p_value := v;
     p_success := p_success P; p_failure := p_failure P |}.
Definition set_success (q : list Callback) (P : Promise) : Promise :=
  {| p_state := p_state P; p_value := p_value P;
     p_success := q; p_failure := p_failure P |}.
Definition set_failure (q : list Callback) (P : Promise) : Promise :=
  {| p_state := p_state P; p_value := p_value P;
     p_success := p_success P; p_failure := q |}.

(** ** Reflection *)

(** A [reflect.Value]: the zero Value, or a value under a type. *)
Inductive Value : Type :=
| Zero
| Val (t : gotype) (v : any).

(** The type of a func: the declared parameters and results. *)
Record FuncType : Type := mkFuncType {
  In_ : list gotype;
  Out_ : list gotype
}.

(** A Go function under [reflect.ValueOf]: its type and what
    [reflect.Value.Call] does with it, the argument checks of [reflect]
    included; [run] gives the values the function returns, one per
    declared result. *)
Record Func : Type := mkFunc {
  Type_ : FuncType;
  run : list Value -> Env -> outcome (list any) * Env
}.

(** A goroutine that has been started and has not finished: the rest of
    a [sendSoon] loop, or the body of the func that [Promisify] starts. *)
Inductive Goroutine : Type :=
| GoSendSoon (val : any) (callbacks : list Callback)
| GoPromisify (p : loc) (f : Func) (args : list any).

Record World : Type := mkWorld {
  heap : list Promise;
  goroutines : list Goroutine;
  env : Env
}.

(** ** The monad of Go code: state and panics *)

Definition M (A : Type) : Type := World -> outcome A * World.

Definition ret {A} (a : A) : M A := fun w => (Ret a, w).

Definition bind {A B} (m : M A) (k : A -> M B) : M B :=
  fun w =>
    match m w with
    | (Ret a, w') => k a w'
    | (Panic x, w') => (Panic x, w')
    end.

Definition panic {A} (x : any) : M A := fun w => (Panic x, w).

Definition lift {A} (o : outcome A) : M A := fun w => (o, w).

Notation "'do' x <- m ; k" := (bind m (fun x => k))
  (at level 10, x name, m at level 100, k at level 200).
Notation "m ;; k" := (bind m (fun _ => k))
  (at level 100, k at level 200, right associativity).

(** [*p]: a pointer that addresses no record is a nil dereference. *)
Definition load (p : loc) : M Promise :=
  fun w =>
    match heap w !! p with
    | Some P => (Ret P, w)
    | None => (Panic nil_dereference, w)
    end.

Definition store (p : loc) (P : Promise) : M unit :=
  fun w =>
    (Ret tt, {| heap := <[p := P]> (heap w);
                goroutines := goroutines w; env := env w |}).

(** [p.field = x]. *)
Definition assign (p : loc) (f : Promise -> Promise) : M unit :=
  do P <- load p; store p (f P).

(** [var child Promise] whose address is taken. *)
Definition new_Promise : M loc :=
  fun w =>
    (Ret (length (heap w)),
     {| heap := heap w ++ [zero_Promise];
        goroutines := goroutines w; env := env w |}).

(** The [go] statement. *)
Definition go (g : Goroutine) : M unit :=
  fun w =>
    (Ret tt, {| heap := heap w; goroutines := goroutines w ++ [g];
                env := env w |}).

(** A call of a user function. *)
Definition user {A} (f : Env -> outcome A * Env) : M A :=
  fun w =>
    let '(o, e) := f (env w) in
    (o, {| heap := heap w; goroutines := goroutines w; env := e |}).

(** ** The promise state machine *)

Definition wrap (p : loc) (success failure : Callback)
  : Callback * Callback :=
  (WrapSuccess p success, WrapFailure p failure).

Definition commit (p : loc) (s : state) (val : any)
  (callbacks : list Callback) : M unit :=
  do P <- load p;
  if negb (p_state P =? pending) then
    panic (VError ("Cannot change p promise that isn't pending: "
                   +:+ fmt_s_state (p_state P)))
  else
    assign p (set_value val) ;;
    assign p (set_state s).

Definition flush (p : loc) : M unit :=
  do P <- load p;
  if p_state P =? pending then ret tt
  else
    (if p_state P =? fulfilled then go (GoSendSoon (p_value P) (p_success P))
     else if p_state P =? rejected then
       go (GoSendSoon (p_value P) (p_failure P))
     else ret tt) ;;
    assign p (set_success []) ;;
    assign p (set_failure []).

Definition Resolve (p : loc) (value : any) : M any :=
  do P <- load p;
  commit p fulfilled value (p_success P) ;;
  flush p ;;
  ret value.

Definition Reject (p : loc) (err : any) : M any :=
  do P <- load p;
  commit p rejected err (p_failure P) ;;
  flush p ;;
  ret err.

Definition Then (p : loc) (success failure : Callback) : M loc :=
  do child <- new_Promise;
  let '(success, failure) := wrap child success failure in
  do P <- load p;
  store p (set_success (p_success P ++ [success]) P) ;;
  do P <- load p;
  store p (set_failure (p_failure P ++ [failure]) P) ;;
  flush p ;;
  ret child.

(** [defer func() { if x := recover(); x != nil { handler(x) } }()]
    around a body whose result has no name: a panic is stopped and the
    function returns [nil]; with a [nil] panic value nothing else
    happens (the Go of this package, where [panic(nil)] recovers as
    [nil]); a panic of the handler leaves the function. *)
Definition deferred_recover (handler : any -> M any) (body : M any) : M any :=
  fun w =>
    match body w with
    | (Ret v, w') => (Ret v, w')
    | (Panic VNil, w') => (Ret VNil, w')
    | (Panic x, w') =>
        match handler x w' with
        | (Ret _, w'') => (Ret VNil, w'')
        | (Panic y, w'') => (Panic y, w'')
        end
    end.

(** Calling a [Callback].  The two closures of [wrap] are unfolded here:
    in each, [safe] picks the user's function or [undefined]. *)
Fixpoint call (c : Callback) (val : any) : M any :=
  match c with
  | Nil => panic nil_dereference
  | Fn f => user (f val)
  | WrapSuccess p success =>
      deferred_recover (Reject p)
        (do r <- match success with
                 | Nil => user (fun e => (Ret val, e))
                 | _ => call success val
                 end;
         Resolve p r)
  | WrapFailure p failure =>
      do r <- match failure with
              | Nil => user (fun e => (Ret val, e))
              | _ => call failure val
              end;
      Reject p r
  end.

(** ** The dispatcher *)

(** One turn of the loop of [sendSoon]. *)
Definition sendSoon_iter (val : any) (cb : Callback) : M unit :=
  if negb (is_nil cb) then (call cb val ;; ret tt) else ret tt.

Fixpoint sendSoon (val : any) (callbacks : list Callback) : M unit :=
  match callbacks with
  | [] => ret tt
  | cb :: rest => sendSoon_iter val cb ;; sendSoon val rest
  end.

(** ** The adapter *)

Definition ValueOf (v : any) : Value :=
  match v with
  | VNil => Zero
  | _ => Val (dynamic_type v) v
  end.

Definition IsValid (v : Value) : bool :=
  match v with Zero => false | Val _ _ => true end.

Definition is_VNil (v : any) : bool :=
  match v with VNil => true | _ => false end.

Definition IsNil (v : Value) : outcome bool :=
  match v with
  | Zero =>
      Panic (VError "reflect: call of reflect.Value.IsNil on zero Value")
  | Val t x =>
      match kind t with
      | Interface | Ptr | Slice => Ret (is_VNil x)
      | k =>
          Panic (VError ("reflect: call of reflect.Value.IsNil on "
                         +:+ Kind_String k +:+ " Value"))
      end
  end.

Definition Interface_ (v : Value) : outcome any :=
  match v with
  | Zero =>
      Panic (VError "reflect: call of reflect.Value.Interface on zero Value")
  | Val _ x => Ret x
  end.

(** The type assertion [x.(error)]. *)
Definition assert_error (x : any) : outcome any :=
  match x with
  | VError msg => Ret (VError msg)
  | VNil =>
      Panic (VError "interface conversion: interface is nil, not error")
  | _ =>
      Panic (VError ("interface conversion: "
                     +:+ gotype_String (dynamic_type x)
                     +:+ " is not error: missing method Error"))
  end.

(** The method call [err.Error()]. *)
Definition Error_ (err : any) : outcome string :=
  match err with
  | VError msg => Ret msg
  | _ => Panic nil_dereference
  end.

(** [f.Call(in)]: the results come back under the declared types. *)
Definition Call (f : Func) (args : list Value) : M (list Value) :=
  do vals <- user (run f args);
  ret (zip_with Val (Out_ (Type_ f)) vals).

Definition NumOut (t : FuncType) : nat := length (Out_ t).

Definition Out (t : FuncType) (i : nat) : gotype := nth i (Out_ t) TEmpty.

Definition errorType : gotype := TError.

Definition reflectAll (args : list any) : list Value := map ValueOf args.

Fixpoint unReflectAll (results : list Value) : outcome (list any) :=
  match results with
  | [] => Ret []
  | r :: rest =>
      obind (Interface_ r) (fun x =>
      obind (unReflectAll rest) (fun outs => Ret (x :: outs)))
  end.

Definition desliceOne (vals : list any) : any :=
  if (length vals =? 0)%nat then VNil
  else if (length vals =? 1)%nat then nth 0 vals VNil
  else VSlice vals.

Definition splitResults (results : list Value) (lastError : bool)
  : outcome (any * any) :=
  let N := length results in
  let err := VNil in
  obind
    (if lastError && (0 <? N)%nat then
       let errval := nth (N - 1) results Zero in
       let results := take (N - 1) results in
       if IsValid errval then
         obind (IsNil errval) (fun isnil =>
         if negb isnil then
           obind (Interface_ errval) (fun x =>
           obind (assert_error x) (fun err => Ret (results, err)))
         else Ret (results, err))
       else Ret (results, err)
     else Ret (results, err))
    (fun '(results, err) =>
       obind (unReflectAll results) (fun outs =>
       Ret (desliceOne outs, err))).

Definition hasLastError (t : FuncType) : bool :=
  let N := NumOut t in
  if (N =? 0)%nat then false
  else bool_decide (Out t (N - 1) = errorType).

(** The func that [Promisify] starts with [go]. *)
Definition Promisify_go (p : loc) (f : Func) (args : list any) : M unit :=
  do results <- Call f (reflectAll args);
  do r <- lift (splitResults results (hasLastError (Type_ f)));
  let '(value, err) := r in
  if is_VNil err then (Resolve p value ;; ret tt)
  else
    do msg <- lift (Error_ err);
    Reject p (VStr msg) ;; ret tt.

(** [Promisify(fn)(args...)]; the result is the promise behind the JS
    wrapper that [Js] puts around it. *)
Definition Promisify (fn : Func) (args : list any) : M loc :=
  do p <- new_Promise;
  go (GoPromisify p fn args) ;;
  ret p.

(** ** Scheduling *)

Definition with_goroutines (gs : list Goroutine) (w : World) : World :=
  {| heap := heap w; goroutines := gs; env := env w |}.

(** The goroutine at index [i] of the pool makes one move: a [sendSoon]
    loop takes one turn, or ends when no callback is left; the func of
    [Promisify] runs to its end.  A panic that leaves a goroutine ends
    the program. *)
Definition step (i : nat) (w : World) : option (outcome unit * World) :=
  match goroutines w !! i with
  | None => None
  | Some (GoSendSoon val []) =>
      Some (Ret tt, with_goroutines (delete i (goroutines w)) w)
  | Some (GoSendSoon val (cb :: rest)) =>
      Some (sendSoon_iter val cb
              (with_goroutines (<[i := GoSendSoon val rest]> (goroutines w)) w))
  | Some (GoPromisify p f args) =>
      Some (Promisify_go p f args
              (with_goroutines (delete i (goroutines w)) w))
  end.

(** ** Vocabulary of the statements *)

(** The message of the panic of [commit]. *)
Definition not_pending (s : state) : any :=
  VError ("Cannot change p promise that isn't pending: " +:+ fmt_s_state s).

(** The goroutine that [flush] starts for a promise, if any. *)
Definition dispatch (P : Promise) : list Goroutine :=
  if p_state P =? fulfilled then [GoSendSoon (p_value P) (p_success P)]
  else if p_state P =? rejected then [GoSendSoon (p_value P) (p_failure P)]
  else [].

(** The record of [p] after [Then] has appended the wrapped pair. *)
Definition registered (child : loc) (success failure : Callback)
  (P : Promise) : Promise :=
  set_failure (p_failure P ++ [WrapFailure child failure])
    (set_success (p_success P ++ [WrapSuccess child success]) P).

(** From [w] to [w']: every promise is still there, and one that had
    left [pending] has the state and the value it had. *)
Definition settled_kept (w w' : World) : Prop :=
  forall p P, heap w !! p = Some P ->
    exists P', heap w' !! p = Some P' /\
      (p_state P <> pending ->
       p_state P' = p_state P /\ p_value P' = p_value P).

(** A promise that has left [pending] has empty queues. *)
Definition queues_drained (w : World) : Prop :=
  forall p P, heap w !! p = Some P -> p_state P <> pending ->
    p_success P = [] /\ p_failure P = [].

(** Both at once. *)
Definition evolves (w w' : World) : Prop :=
  settled_kept w w' /\ (queues_drained w -> queues_drained w').

(** Code after whose run the world has only evolved, whatever the
    outcome. *)
Definition steady {A} (m : M A) : Prop :=
  forall w, evolves w (snd (m w)).

(** A promise that has left [pending]. *)
Definition settled (w : World) (p : loc) : Prop :=
  exists P, heap w !! p = Some P /\ p_state P <> pending.

End Promise.

(** ** Programs over promises *)

(** What the goroutines of a program do, one after the other: calls of
    the three operations and of the adapter by any caller, and moves of
    the started goroutines.  A caller that meets a panic recovers and
    goes on, a move of a goroutine that is not in the pool does nothing,
    and the run goes on after a panic of a started goroutine as well:
    these are more runs than a Go program has. *)
Inductive action {Env : Type} : Type :=
| DoThen (p : loc) (success failure : @Callback Env)
| DoResolve (p : loc) (value : any)
| DoReject (p : loc) (err : any)
| DoPromisify (fn : @Func Env) (args : list any)
| DoStep (i : nat).

Definition perform {Env} (a : @action Env) (w : @World Env)
  : outcome unit * World :=
  match a with
  | DoThen p success failure => bind (Then p success failure) (fun _ => ret tt) w
  | DoResolve p value => bind (Resolve p value) (fun _ => ret tt) w
  | DoReject p err => bind (Reject p err) (fun _ => ret tt) w
  | DoPromisify fn args => bind (Promisify fn args) (fun _ => ret tt) w
  | DoStep i =>
      match step i w with
      | Some r => r
      | None => (Ret tt, w)
      end
  end.

Fixpoint perform_all {Env} (acts : list (@action Env)) (w : @World Env)
  : World :=
  match acts with
  | [] => w
  | a :: rest => perform_all rest (snd (perform a w))
  end.

(** Is [a] a call of [Resolve] or [Reject] on [p]? *)
Definition settles {Env} (p : loc) (a : @action Env) : bool :=
  match a with
  | DoResolve q _ | DoReject q _ => bool_decide (p = q)
  | _ => false
  end.

(** The number of calls of [Resolve] or [Reject] on [p] in [acts] that
    return. *)
Fixpoint succeeded {Env} (p : loc) (acts : list (@action Env))
  (w : @World Env) : nat :=
  match acts with
  | [] => 0
  | a :: rest =>
      let '(o, w') := perform a w in
      ((if settles p a && is_Ret o then 1 else 0) + succeeded p rest w')%nat
  end.

(** ** A main goroutine beside the started ones *)

(** The program of the goroutine that builds the promises: a call and
    what follows once it has returned. *)
Inductive prog {Env : Type} : Type :=
| Done
| Op {A : Type} (m : @M Env A) (k : A -> prog).

Definition is_done {Env} (main : @prog Env) : bool :=
  match main with Done => true | Op _ _ => false end.

(** Who moves next: the main goroutine with its next call, or the
    started goroutine at an index of the pool. *)
Inductive move : Type :=
| Main
| Go (i : nat).

(** A run under a list of moves: the outcome, whether the main goroutine
    is through, and the world; nothing for a move that cannot be made.
    A panic that leaves a goroutine ends the run. *)
Fixpoint interleave {Env} (moves : list move) (main : @prog Env)
  (w : @World Env) : option (outcome unit * bool * World) :=
  match moves with
  | [] => Some (Ret tt, is_done main, w)
  | Main :: rest =>
      match main with
      | Done => None
      | Op m k =>
          match m w with
          | (Ret a, w') => interleave rest (k a) w'
          | (Panic x, w') => Some (Panic x, false, w')
          end
      end
  | Go i :: rest =>
      match step i w with
      | None => None
      | Some (Ret _, w') => interleave rest main w'
      | Some (Panic x, w') => Some (Panic x, is_done main, w')
      end
  end.

(** [Q] holds after every run of at most [fuel] moves, and after [fuel]
    moves nothing is left to run. *)
Fixpoint all_runs {Env} (fuel : nat)
  (Q : outcome unit -> bool -> @World Env -> bool)
  (main : @prog Env) (w : @World Env) : bool :=
  Q (Ret tt) (is_done main) w &&
  match fuel with
  | O =>
      is_done main &&
      match goroutines w with [] => true | _ :: _ => false end
  | S n =>
      match main with
      | Done => true
      | Op m k =>
          match m w with
          | (Ret a, w') => all_runs n Q (k a) w'
          | (Panic x, w') => Q (Panic x) false w'
          end
      end &&
      forallb
        (fun i =>
           match step i w with
           | None => true
           | Some (Ret _, w') => all_runs n Q main w'
           | Some (Panic x, w') => Q (Panic x) (is_done main) w'
           end)
        (seq 0 (length (goroutines w)))
  end.

(** ** The functions of the tests *)

(** What the handlers have seen: the number of the handler and the
    value it was called with, in the order of the calls (the sends on
    the channels [done1], [done2], [done3] of the tests). *)
Definition Log : Type := list (nat * Z).

(** [incrementor.process], for the handler with number [i]. *)
Definition process (i : nat) (val : any) (log : Log) : outcome any * Log :=
  match val with
  | VInt v => (Ret (VInt (wrap_int (v + 1))), log ++ [(i, v)])
  | VNil =>
      (Panic (VError "interface conversion: interface {} is nil, not int"),
       log)
  | _ =>
      (Panic (VError ("interface conversion: interface {} is "
                      +:+ gotype_String (dynamic_type val) +:+ ", not int")),
       log)
  end.

Definition panicIfCalled {Env} (val : any) (e : Env) : outcome any * Env :=
  (Panic (VStr "oops"), e).

(** The world of a program that has made no promise yet. *)
Definition start {Env} (e : Env) : @World Env :=
  {| heap := []; goroutines := []; env := e |}.

(** [root.Then(f1).Then(f2).Then(f3)] with [root.Resolve(1)] before the
    link number [k] is made ([k = 3]: after the whole chain, as in
    [TestPromiseFulfilled]). *)
Definition resolve_at (k i : nat) (root : loc) (rest : @prog Log)
  : @prog Log :=
  if (k =? i)%nat then Op (Resolve root (VInt 1)) (fun _ => rest) else rest.

Definition chain_test (k : nat) : @prog Log :=
  Op new_Promise (fun root =>
  resolve_at k 0 root (
  Op (Then root (Fn (process 1)) Nil) (fun a2 =>
  resolve_at k 1 root (
  Op (Then a2 (Fn (process 2)) Nil) (fun a3 =>
  resolve_at k 2 root (
  Op (Then a3 (Fn (process 3)) Nil) (fun _ =>
  resolve_at k 3 root Done))))))).

(** The same chain on the failure side, with [root.Reject(1)] at the
    end, as in [TestPromiseRejected]. *)
Definition chain_test_rejected : @prog Log :=
  Op new_Promise (fun root =>
  Op (Then root (Fn panicIfCalled) (Fn (process 1))) (fun a2 =>
  Op (Then a2 (Fn panicIfCalled) (Fn (process 2))) (fun a3 =>
  Op (Then a3 (Fn panicIfCalled) (Fn (process 3))) (fun _ =>
  Op (Reject root (VInt 1)) (fun _ => Done))))).

Definition seen_1_2_3 : Log := [(1%nat, 1); (2%nat, 2); (3%nat, 3)].

Fixpoint is_prefix (l1 l2 : Log) : bool :=
  match l1, l2 with
  | [], _ => true
  | x :: l1', y :: l2' => bool_decide (x = y) && is_prefix l1' l2'
  | _ :: _, [] => false
  end.

(** The check made after every run of the chain: no panic, the handlers
    have seen a prefix of 1, 2, 3 in this order, and all of it once
    nothing is left to run. *)
Definition chain_check (o : outcome unit) (done : bool) (w : @World Log)
  : bool :=
  is_Ret o && is_prefix (env w) seen_1_2_3 &&
  (negb done
   || negb (match goroutines w with [] => true | _ :: _ => false end)
   || bool_decide (env w = seen_1_2_3)).

(** ** Sample programs *)

(** [func() (int, error) { return 7, errors.New("boom") }] *)
Definition boom : @Func unit :=
  {| Type_ := {| In_ := []; Out_ := [TInt; TError] |};
     run := fun _ e => (Ret [VInt 7; VError "boom"], e) |}.

(** [func() (int, error) { return 7, nil }] *)
Definition seven : @Func unit :=
  {| Type_ := {| In_ := []; Out_ := [TInt; TError] |};
     run := fun _ e => (Ret [VInt 7; VNil], e) |}.

(** [func() interface{} { return errors.New("boom") }] *)
Definition boom_as_value : @Func unit :=
  {| Type_ := {| In_ := []; Out_ := [TEmpty] |};
     run := fun _ e => (Ret [VError "boom"], e) |}.

(** [func() { panic("oops") }] *)
Definition oops : @Func unit :=
  {| Type_ := {| In_ := []; Out_ := [] |};
     run := fun _ e => (Panic (VStr "oops"), e) |}.

(** [Promisify(fn)(args...)] in the main goroutine. *)
Definition promisify_test (fn : @Func unit) (args : list any) : @prog unit :=
  Op (Promisify fn args) (fun _ => Done).

(** [root.Then(nil, panicIfCalled); root.Reject(1)] *)
Definition then_failure_panics : @prog unit :=
  Op new_Promise (fun root =>
  Op (Then root Nil (Fn panicIfCalled)) (fun _ =>
  Op (Reject root (VInt 1)) (fun _ => Done))).

(** [root.Then(panicIfCalled, nil); root.Resolve(1)] *)
Definition then_success_panics : @prog unit :=
  Op new_Promise (fun root =>
  Op (Then root (Fn panicIfCalled) Nil) (fun _ =>
  Op (Resolve root (VInt 1)) (fun _ => Done))).

(** [func() int { return 1 }], in a program whose state is the log of
    the handlers. *)
Definition one : @Func Log :=
  {| Type_ := {| In_ := []; Out_ := [TInt] |};
     run := fun _ e => (Ret [VInt 1], e) |}.

(** ** Vocabulary of the further statements *)

(** The three states that the package names. *)
Definition valid_state (s : state) : Prop :=
  s = pending \/ s = fulfilled \/ s = rejected.

Definition valid_states {Env} (w : @World Env) : Prop :=
  forall p P, heap w !! p = Some P -> valid_state (p_state P).

(** No promise has been settled and no goroutine has been started. *)
Definition quiet {Env} (w : @World Env) : Prop :=
  goroutines w = []
  /\ forall p P, heap w !! p = Some P -> p_state P = pending.

(** The result of a run, with the goroutines [gs] put before those of
    its pool. *)
Definition prepend {Env A} (gs : list (@Goroutine Env))
  (r : outcome A * @World Env) : outcome A * @World Env :=
  (fst r,
   {| heap := heap (snd r); goroutines := gs ++ goroutines (snd r);
      env := env (snd r) |}).

(** Code after whose run [I] still holds, whatever the outcome. *)
Definition keeps {Env A} (I : @World Env -> Prop) (m : @M Env A) : Prop :=
  forall w, I w -> I (snd (m w)).

(** A call of [Then] or a move of a started goroutine. *)
Definition registers_only {Env} (a : @action Env) : bool :=
  match a with
  | DoThen _ _ _ | DoStep _ => true
  | _ => false
  end.

(** [Promisify(fn)(args...)] and then [Then] on the promise it returns. *)
Definition promisify_then {Env} (fn : @Func Env) (args : list any)
  (success failure : @Callback Env) : @prog Env :=
  Op (Promisify fn args) (fun p =>
  Op (Then p success failure) (fun _ => Done)).

(** Code that does not look at the pool of goroutines and only adds to
    its end. *)
Definition appends {Env A} (m : @M Env A) : Prop :=
  forall h gs e,
    m {| heap := h; goroutines := gs; env := e |}
    = prepend gs (m {| heap := h; goroutines := []; env := e |}).

(** The calls [p.Then(s1, f1); p.Then(s2, f2); ...]. *)
Definition Thens {Env} (p : loc) (cbs : list (@Callback Env * @Callback Env))
  : list (@action Env) :=
  map (fun sf => DoThen p (fst sf) (snd sf)) cbs.

(** The closures that these calls append to the two queues when the
    first child is made at [child]. *)
Definition success_closures {Env} (child : loc)
  (cbs : list (@Callback Env * @Callback Env)) : list (@Callback Env) :=
  imap (fun k sf => WrapSuccess (child + k) (fst sf)) cbs.

Definition failure_closures {Env} (child : loc)
  (cbs : list (@Callback Env * @Callback Env)) : list (@Callback Env) :=
  imap (fun k sf => WrapFailure (child + k) (snd sf)) cbs.

(** * Properties of the package *)

Notation "'do' x <- m ; k" := (bind m (fun x => k))
  (at level 10, x name, m at level 100, k at level 200).
Notation "m ;; k" := (bind m (fun _ => k))
  (at level 100, k at level 200, right associativity).

Section Operations.

Context {Env : Type}.
Implicit Types (w : @World Env) (P : @Promise Env) (c : @Callback Env).
Implicit Types (h : list (@Promise Env)) (gs : list (@Goroutine Env)).
Local Abbreviation steady := (steady (Env := Env)).

(** ** What each operation does to the world *)

Lemma load_Some h gs (e : Env) p P :
  h !! p = Some P -> load p (mkWorld h gs e) = (Ret P, mkWorld h gs e).
Proof. intros H. unfold load. simpl. now rewrite H. Qed.

Lemma load_None h gs (e : Env) p :
  h !! p = None ->
  load p (mkWorld h gs e) = (Panic nil_dereference, mkWorld h gs e).
Proof. intros H. unfold load. simpl. now rewrite H. Qed.

Lemma assign_Some h gs (e : Env) p P f :
  h !! p = Some P ->
  assign p f (mkWorld h gs e) = (Ret tt, mkWorld (<[p := f P]> h) gs e).
Proof. intros H. unfold assign, bind. now rewrite (load_Some _ _ _ _ _ H). Qed.

Lemma lookup_insert_here h p P Q :
  h !! p = Some P -> <[p := Q]> h !! p = Some Q.
Proof. intros H. apply list_lookup_insert_eq. eapply lookup_lt_Some; eauto. Qed.

Lemma commit_pending h gs (e : Env) p P s val cbs :
  h !! p = Some P -> p_state P = pending ->
  commit p s val cbs (mkWorld h gs e)
  = (Ret tt, mkWorld (<[p := set_state s (set_value val P)]> h) gs e).
Proof.
  intros H Hs. unfold commit, bind at 1.
  rewrite (load_Some _ _ _ _ _ H), Hs. simpl. unfold bind.
  rewrite (assign_Some _ _ _ _ _ _ H).
  rewrite (assign_Some _ _ _ _ (set_value val P)) by (eapply lookup_insert_here; eauto).
  now rewrite list_insert_insert_eq.
Qed.

Lemma commit_settled h gs (e : Env) p P s val cbs :
  h !! p = Some P -> p_state P <> pending ->
  commit p s val cbs (mkWorld h gs e)
  = (Panic (not_pending (p_state P)), mkWorld h gs e).
Proof.
  intros H Hs. unfold commit, bind.
  rewrite (load_Some _ _ _ _ _ H).
  destruct (Z.eqb_spec (p_state P) pending) as [E|E]; [contradiction|].
  reflexivity.
Qed.

Lemma flush_pending h gs (e : Env) p P :
  h !! p = Some P -> p_state P = pending ->
  flush p (mkWorld h gs e) = (Ret tt, mkWorld h gs e).
Proof.
  intros H Hs. unfold flush, bind.
  now rewrite (load_Some _ _ _ _ _ H), Hs.
Qed.

Lemma flush_settled h gs (e : Env) p P :
  h !! p = Some P -> p_state P <> pending ->
  flush p (mkWorld h gs e)
  = (Ret tt, mkWorld (<[p := set_failure [] (set_success [] P)]> h)
                     (gs ++ dispatch P) e).
Proof.
  intros H Hs. unfold flush, bind at 1.
  rewrite (load_Some _ _ _ _ _ H).
  destruct (Z.eqb_spec (p_state P) pending) as [E|_]; [contradiction|].
  unfold dispatch.
  assert (Hq : forall gs',
    (assign p (set_success []) ;; assign p (set_failure [])) (mkWorld h gs' e)
    = (Ret tt, mkWorld (<[p := set_failure [] (set_success [] P)]> h) gs' e)).
  { intros gs'. unfold bind. rewrite (assign_Some _ _ _ _ _ _ H).
    rewrite (assign_Some _ _ _ _ (set_success [] P))
      by (eapply lookup_insert_here; eauto).
    now rewrite list_insert_insert_eq. }
  unfold bind at 1.
  destruct (p_state P =? fulfilled); [|destruct (p_state P =? rejected)];
    unfold go, ret; simpl; rewrite Hq; try reflexivity.
  now rewrite app_nil_r.
Qed.

Lemma Resolve_pending h gs (e : Env) p P v :
  h !! p = Some P -> p_state P = pending ->
  Resolve p v (mkWorld h gs e)
  = (Ret v, mkWorld (<[p := mkPromise fulfilled v [] []]> h)
                    (gs ++ [GoSendSoon v (p_success P)]) e).
Proof.
  intros H Hs. unfold Resolve, bind.
  rewrite (load_Some _ _ _ _ _ H), (commit_pending _ _ _ _ _ _ _ _ H Hs).
  erewrite flush_settled by first [eapply lookup_insert_here; eauto | simpl; discriminate].
  now rewrite list_insert_insert_eq.
Qed.

Lemma Reject_pending h gs (e : Env) p P v :
  h !! p = Some P -> p_state P = pending ->
  Reject p v (mkWorld h gs e)
  = (Ret v, mkWorld (<[p := mkPromise rejected v [] []]> h)
                    (gs ++ [GoSendSoon v (p_failure P)]) e).
Proof.
  intros H Hs. unfold Reject, bind.
  rewrite (load_Some _ _ _ _ _ H), (commit_pending _ _ _ _ _ _ _ _ H Hs).
  erewrite flush_settled by first [eapply lookup_insert_here; eauto | simpl; discriminate].
  now rewrite list_insert_insert_eq.
Qed.

Lemma Resolve_settled h gs (e : Env) p P v :
  h !! p = Some P -> p_state P <> pending ->
  Resolve p v (mkWorld h gs e)
  = (Panic (not_pending (p_state P)), mkWorld h gs e).
Proof.
  intros H Hs. unfold Resolve, bind.
  now rewrite (load_Some _ _ _ _ _ H), (commit_settled _ _ _ _ _ _ _ _ H Hs).
Qed.

Lemma Reject_settled h gs (e : Env) p P v :
  h !! p = Some P -> p_state P <> pending ->
  Reject p v (mkWorld h gs e)
  = (Panic (not_pending (p_state P)), mkWorld h gs e).
Proof.
  intros H Hs. unfold Reject, bind.
  now rewrite (load_Some _ _ _ _ _ H), (commit_settled _ _ _ _ _ _ _ _ H Hs).
Qed.

Lemma Resolve_nil h gs (e : Env) p v :
  h !! p = None ->
  Resolve p v (mkWorld h gs e) = (Panic nil_dereference, mkWorld h gs e).
Proof.
  intros H. unfold Resolve, bind. now rewrite (load_None _ _ _ _ H).
Qed.

Lemma Reject_nil h gs (e : Env) p v :
  h !! p = None ->
  Reject p v (mkWorld h gs e) = (Panic nil_dereference, mkWorld h gs e).
Proof.
  intros H. unfold Reject, bind. now rewrite (load_None _ _ _ _ H).
Qed.

Lemma Then_registers h gs (e : Env) p P s f :
  (h ++ [zero_Promise]) !! p = Some P ->
  Then p s f (mkWorld h gs e)
  = (do _ <- flush p; ret (length h))
      (mkWorld (<[p := registered (length h) s f P]> (h ++ [zero_Promise]))
               gs e).
Proof.
  intros H. unfold Then, bind at 1. unfold new_Promise. simpl.
  unfold bind at 1. rewrite (load_Some _ _ _ _ _ H).
  unfold bind at 1. unfold store at 1. simpl.
  unfold bind at 1.
  rewrite (load_Some _ _ _ _ (set_success (p_success P ++ [WrapSuccess (length h) s]) P))
    by (eapply lookup_insert_here; eauto).
  unfold bind at 1. unfold store at 1. simpl.
  now rewrite list_insert_insert_eq.
Qed.

Lemma Then_pending h gs (e : Env) p P s f :
  (h ++ [zero_Promise]) !! p = Some P -> p_state P = pending ->
  Then p s f (mkWorld h gs e)
  = (Ret (length h),
     mkWorld (<[p := registered (length h) s f P]> (h ++ [zero_Promise]))
             gs e).
Proof.
  intros H Hs. rewrite (Then_registers _ _ _ _ _ _ _ H). unfold bind.
  rewrite (flush_pending _ _ _ _ (registered (length h) s f P));
    [reflexivity| |exact Hs].
  eapply lookup_insert_here; eauto.
Qed.

Lemma Then_settled h gs (e : Env) p P s f :
  (h ++ [zero_Promise]) !! p = Some P -> p_state P <> pending ->
  Then p s f (mkWorld h gs e)
  = (Ret (length h),
     mkWorld (<[p := set_failure [] (set_success [] P)]>
                (h ++ [zero_Promise]))
             (gs ++ dispatch (registered (length h) s f P)) e).
Proof.
  intros H Hs. rewrite (Then_registers _ _ _ _ _ _ _ H). unfold bind.
  rewrite (flush_settled _ _ _ _ (registered (length h) s f P));
    [|eapply lookup_insert_here; eauto|exact Hs].
  now rewrite list_insert_insert_eq.
Qed.

Lemma Then_nil h gs (e : Env) p s f :
  (h ++ [zero_Promise]) !! p = None ->
  Then p s f (mkWorld h gs e)
  = (Panic nil_dereference, mkWorld (h ++ [zero_Promise]) gs e).
Proof.
  intros H. unfold Then, bind at 1. unfold new_Promise. simpl.
  unfold bind. now rewrite (load_None _ _ _ _ H).
Qed.

(** [safe] inside the closures of [wrap]. *)
Lemma call_safe c val :
  call (safe c) val
  = match c with
    | Nil => user (fun e => (Ret val, e))
    | _ => call c val
    end.
Proof. destruct c; reflexivity. Qed.

Lemma call_WrapSuccess p c val :
  call (WrapSuccess p c) val
  = deferred_recover (Reject p) (do r <- call (safe c) val; Resolve p r).
Proof. rewrite call_safe. reflexivity. Qed.

Lemma call_WrapFailure p c val :
  call (WrapFailure p c) val = (do r <- call (safe c) val; Reject p r).
Proof. rewrite call_safe. reflexivity. Qed.

(** ** What no operation undoes *)

Lemma evolves_refl w : evolves w w.
Proof. split; [|tauto]. intros p P H. exists P. tauto. Qed.

Lemma evolves_trans w1 w2 w3 :
  evolves w1 w2 -> evolves w2 w3 -> evolves w1 w3.
Proof.
  intros [K1 Q1] [K2 Q2]. split; [|tauto].
  intros p P H. destruct (K1 _ _ H) as (P2 & H2 & E2).
  destruct (K2 _ _ H2) as (P3 & H3 & E3). exists P3. split; [exact H3|].
  intros Hs. destruct (E2 Hs) as [Es Ev].
  assert (Hs2 : p_state P2 <> pending) by congruence.
  destruct (E3 Hs2). split; congruence.
Qed.

Lemma evolves_pool h gs gs' (e e' : Env) :
  evolves (mkWorld h gs e) (mkWorld h gs' e').
Proof. split; [|intros Q; exact Q]. intros p P H. exists P. tauto. Qed.

Lemma evolves_alloc h gs (e : Env) :
  evolves (mkWorld h gs e) (mkWorld (h ++ [zero_Promise]) gs e).
Proof.
  split.
  - intros p P H. exists P. split; [|tauto]. now apply lookup_app_l_Some.
  - intros Q p P H Hs. simpl in H. apply lookup_app_Some in H.
    destruct H as [H|[_ H]]; [exact (Q _ _ H Hs)|].
    destruct (p - length h)%nat; simpl in H; [|discriminate].
    inversion H; subst. now contradiction Hs.
Qed.

Lemma evolves_insert h gs (e : Env) p P Q :
  h !! p = Some P ->
  (p_state P <> pending -> p_state Q = p_state P /\ p_value Q = p_value P) ->
  (p_state Q <> pending -> p_success Q = [] /\ p_failure Q = []) ->
  evolves (mkWorld h gs e) (mkWorld (<[p := Q]> h) gs e).
Proof.
  intros H K D. split.
  - intros q R Hq. simpl in *. destruct (decide (p = q)) as [->|N].
    + exists Q. split; [eapply lookup_insert_here; eauto|].
      assert (R = P) by congruence. subst R. exact K.
    + exists R. rewrite list_lookup_insert_ne by exact N. tauto.
  - intros I q R Hq Hs. simpl in *. destruct (decide (p = q)) as [->|N].
    + rewrite (lookup_insert_here _ _ _ _ H) in Hq. inversion Hq; subst. auto.
    + rewrite list_lookup_insert_ne in Hq by exact N. exact (I _ _ Hq Hs).
Qed.

Lemma steady_ret {A} (a : A) : steady (@ret Env A a).
Proof. intros w. apply evolves_refl. Qed.

Lemma steady_panic {A} x : steady (@panic Env A x).
Proof. intros w. apply evolves_refl. Qed.

Lemma steady_lift {A} (o : outcome A) : steady (@lift Env A o).
Proof. intros w. apply evolves_refl. Qed.

Lemma steady_bind {A B} (m : M A) (k : A -> M B) :
  steady m -> (forall a, steady (k a)) -> steady (bind m k).
Proof.
  intros Hm Hk w. unfold bind. specialize (Hm w).
  destruct (m w) as [[a|x] w1]; simpl in *; [|exact Hm].
  eapply evolves_trans; [exact Hm|apply Hk].
Qed.

Lemma steady_user {A} (f : Env -> outcome A * Env) : steady (user f).
Proof.
  intros [h gs e]. unfold user. simpl. destruct (f e) as [o e'].
  apply evolves_pool.
Qed.

Lemma steady_go g : steady (go g).
Proof. intros [h gs e]. apply evolves_pool. Qed.

Lemma steady_new_Promise : steady (@new_Promise Env).
Proof. intros [h gs e]. apply evolves_alloc. Qed.

Lemma steady_Resolve p v : steady (@Resolve Env p v).
Proof.
  intros [h gs e]. destruct (h !! p) as [P|] eqn:H.
  - destruct (decide (p_state P = pending)) as [Hs|Hs].
    + rewrite (Resolve_pending _ _ _ _ _ _ H Hs). simpl.
      eapply evolves_trans; [|apply evolves_pool].
      apply (evolves_insert _ gs e _ _ _ H); [tauto|]. simpl. tauto.
    + rewrite (Resolve_settled _ _ _ _ _ _ H Hs). apply evolves_refl.
  - rewrite (Resolve_nil _ _ _ _ _ H). apply evolves_refl.
Qed.

Lemma steady_Reject p v : steady (@Reject Env p v).
Proof.
  intros [h gs e]. destruct (h !! p) as [P|] eqn:H.
  - destruct (decide (p_state P = pending)) as [Hs|Hs].
    + rewrite (Reject_pending _ _ _ _ _ _ H Hs). simpl.
      eapply evolves_trans; [|apply evolves_pool].
      apply (evolves_insert _ gs e _ _ _ H); [tauto|]. simpl. tauto.
    + rewrite (Reject_settled _ _ _ _ _ _ H Hs). apply evolves_refl.
  - rewrite (Reject_nil _ _ _ _ _ H). apply evolves_refl.
Qed.

Lemma steady_Then p s f : steady (Then p s f).
Proof.
  intros [h gs e].
  eapply evolves_trans; [apply (evolves_alloc h gs e)|].
  destruct ((h ++ [zero_Promise]) !! p) as [P|] eqn:H.
  - destruct (decide (p_state P = pending)) as [Hs|Hs].
    + rewrite (Then_pending _ _ _ _ _ _ _ H Hs). simpl.
      apply (evolves_insert _ gs e _ _ _ H); simpl; tauto.
    + rewrite (Then_settled _ _ _ _ _ _ _ H Hs). simpl.
      eapply evolves_trans; [|apply evolves_pool].
      apply (evolves_insert _ gs e _ _ _ H); simpl; tauto.
  - rewrite (Then_nil _ _ _ _ _ _ H). apply evolves_refl.
Qed.

Lemma steady_deferred_recover handler body :
  (forall x, steady (handler x)) -> steady body ->
  steady (deferred_recover handler body).
Proof.
  intros Hh Hb w. unfold deferred_recover. specialize (Hb w).
  destruct (body w) as [[v|x] w1]; simpl in *; [exact Hb|].
  assert (Hx : evolves w (snd (handler x w1)))
    by (eapply evolves_trans; [exact Hb|apply Hh]).
  destruct x; try exact Hb;
    destruct (handler _ w1) as [[?|?] ?]; exact Hx.
Qed.

Lemma steady_call c : forall val, steady (call c val).
Proof.
  induction c as [|f|p c IH|p c IH]; intros val.
  - apply steady_panic.
  - apply steady_user.
  - rewrite call_WrapSuccess. apply steady_deferred_recover.
    + intros x. apply steady_Reject.
    + apply steady_bind; [|intros r; apply steady_Resolve].
      rewrite call_safe. destruct c; try apply IH. apply steady_user.
  - rewrite call_WrapFailure.
    apply steady_bind; [|intros r; apply steady_Reject].
    rewrite call_safe. destruct c; try apply IH. apply steady_user.
Qed.

Lemma steady_sendSoon_iter val cb : steady (sendSoon_iter val cb).
Proof.
  unfold sendSoon_iter. destruct (negb (is_nil cb)); [|apply steady_ret].
  apply steady_bind; [apply steady_call|intros _; apply steady_ret].
Qed.

Lemma steady_sendSoon val cbs : steady (sendSoon val cbs).
Proof.
  induction cbs as [|cb rest IH]; simpl; [apply steady_ret|].
  apply steady_bind; [apply steady_sendSoon_iter|intros _; exact IH].
Qed.

Lemma steady_Promisify_go p f args : steady (Promisify_go p f args).
Proof.
  unfold Promisify_go, Call.
  apply steady_bind.
  { apply steady_bind; [apply steady_user|intros vals; apply steady_ret]. }
  intros results. apply steady_bind; [apply steady_lift|].
  intros [value err]. destruct (is_VNil err).
  - apply steady_bind; [apply steady_Resolve|intros _; apply steady_ret].
  - apply steady_bind; [apply steady_lift|]. intros msg.
    apply steady_bind; [apply steady_Reject|intros _; apply steady_ret].
Qed.

Lemma steady_Promisify fn args : steady (Promisify fn args).
Proof.
  unfold Promisify. apply steady_bind; [apply steady_new_Promise|].
  intros p. apply steady_bind; [apply steady_go|intros _; apply steady_ret].
Qed.

Lemma step_evolves i w o w' : step i w = Some (o, w') -> evolves w w'.
Proof.
  destruct w as [h gs e]. unfold step. simpl.
  destruct (gs !! i) as [[val [|cb rest]|p f args]|]; intros H;
    try discriminate.
  - inversion H; subst. apply evolves_pool.
  - inversion H as [E]. eapply evolves_trans; [apply evolves_pool|].
    unfold with_goroutines in E. simpl in E.
    pose proof (steady_sendSoon_iter val cb
      (mkWorld h (<[i := GoSendSoon val rest]> gs) e)) as S.
    rewrite E in S. exact S.
  - inversion H as [E]. eapply evolves_trans; [apply evolves_pool|].
    unfold with_goroutines in E. simpl in E.
    pose proof (steady_Promisify_go p f args
      (mkWorld h (delete i gs) e)) as S.
    rewrite E in S. exact S.
Qed.

Lemma perform_evolves (a : @action Env) w : evolves w (snd (perform a w)).
Proof.
  destruct a as [p s f|p v|p v|fn args|i]; unfold perform.
  - apply steady_bind; [apply steady_Then|intros; apply steady_ret].
  - apply steady_bind; [apply steady_Resolve|intros; apply steady_ret].
  - apply steady_bind; [apply steady_Reject|intros; apply steady_ret].
  - apply steady_bind; [apply steady_Promisify|intros; apply steady_ret].
  - destruct (step i w) as [[o w']|] eqn:E; simpl.
    + eapply step_evolves; eauto.
    + apply evolves_refl.
Qed.

Lemma perform_all_evolves (acts : list (@action Env)) :
  forall w, evolves w (perform_all acts w).
Proof.
  induction acts as [|a rest IH]; intros w; simpl.
  - apply evolves_refl.
  - eapply evolves_trans; [apply perform_evolves|apply IH].
Qed.

Lemma settled_evolves w w' p : evolves w w' -> settled w p -> settled w' p.
Proof.
  intros [K _] (P & H & Hs). destruct (K _ _ H) as (P' & H' & E).
  exists P'. split; [exact H'|]. destruct (E Hs). congruence.
Qed.

Lemma settle_settled_panics (a : @action Env) w p :
  settles p a = true -> settled w p -> is_Ret (fst (perform a w)) = false.
Proof.
  destruct w as [h gs e]. intros Ha (P & H & Hs).
  destruct a as [| q v | q v | |]; try discriminate; simpl in Ha;
    apply bool_decide_eq_true in Ha; subst q; simpl in H; simpl; unfold bind.
  - now rewrite (Resolve_settled _ _ _ _ _ _ H Hs).
  - now rewrite (Reject_settled _ _ _ _ _ _ H Hs).
Qed.

Lemma settle_returns_settled (a : @action Env) w p :
  settles p a = true -> is_Ret (fst (perform a w)) = true ->
  settled (snd (perform a w)) p.
Proof.
  destruct w as [h gs e]. intros Ha.
  destruct a as [| q v | q v | |]; try discriminate; simpl in Ha;
    apply bool_decide_eq_true in Ha; subst q; simpl; unfold bind.
  - destruct (h !! p) as [P|] eqn:H.
    + destruct (decide (p_state P = pending)) as [Hs|Hs].
      * rewrite (Resolve_pending _ _ _ _ _ _ H Hs). simpl. intros _.
        eexists. split; [eapply lookup_insert_here; eauto|]. discriminate.
      * now rewrite (Resolve_settled _ _ _ _ _ _ H Hs).
    + now rewrite (Resolve_nil _ _ _ _ _ H).
  - destruct (h !! p) as [P|] eqn:H.
    + destruct (decide (p_state P = pending)) as [Hs|Hs].
      * rewrite (Reject_pending _ _ _ _ _ _ H Hs). simpl. intros _.
        eexists. split; [eapply lookup_insert_here; eauto|]. discriminate.
      * now rewrite (Reject_settled _ _ _ _ _ _ H Hs).
    + now rewrite (Reject_nil _ _ _ _ _ H).
Qed.

Lemma succeeded_settled p (acts : list (@action Env)) :
  forall w, settled w p -> succeeded p acts w = 0%nat.
Proof.
  induction acts as [|a rest IH]; intros w Hw; simpl; [reflexivity|].
  pose proof (perform_evolves a w) as E.
  pose proof (settle_settled_panics a w p) as F.
  destruct (perform a w) as [o w']. simpl in *.
  rewrite (IH w') by (eapply settled_evolves; eauto).
  destruct (settles p a); simpl; [|reflexivity].
  now rewrite (F eq_refl Hw).
Qed.

Lemma succeeded_le_1 p (acts : list (@action Env)) :
  forall w, (succeeded p acts w <= 1)%nat.
Proof.
  induction acts as [|a rest IH]; intros w; simpl; [lia|].
  pose proof (settle_returns_settled a w p) as F.
  destruct (perform a w) as [o w']. simpl in *.
  destruct (settles p a && is_Ret o) eqn:B.
  - apply andb_true_iff in B. destruct B as [B1 B2].
    rewrite (succeeded_settled p rest w') by auto. lia.
  - specialize (IH w'). lia.
Qed.

(** ** Settlement happens once *)

(** C4: on every promise [p], among the calls of [Resolve] and [Reject]
    that a program makes on [p], whatever else it does in between, at
    most one returns; a call that returns leaves [p] fulfilled or
    rejected with the given value; and once [p] has left [pending], a
    later call of either panics with the error of [commit] and leaves the
    world, so the state and the value of [p], as it was. *)
Theorem settle_at_most_once (p : loc) (acts : list (@action Env)) w :
  (succeeded p acts w <= 1)%nat
  /\ (forall v r w1, Resolve p v w = (Ret r, w1) ->
       exists P1, heap w1 !! p = Some P1
         /\ p_state P1 = fulfilled /\ p_value P1 = v)
  /\ (forall v r w1, Reject p v w = (Ret r, w1) ->
       exists P1, heap w1 !! p = Some P1
         /\ p_state P1 = rejected /\ p_value P1 = v)
  /\ (forall P, heap w !! p = Some P -> p_state P <> pending ->
       let w' := perform_all acts w in
       exists P', heap w' !! p = Some P'
         /\ p_state P' = p_state P /\ p_value P' = p_value P
         /\ forall v,
              Resolve p v w' = (Panic (not_pending (p_state P)), w')
              /\ Reject p v w' = (Panic (not_pending (p_state P)), w')).
Proof.
  split; [apply succeeded_le_1|]. destruct w as [h gs e]. simpl.
  split; [|split].
  - intros v r w1. destruct (h !! p) as [P|] eqn:H.
    + destruct (decide (p_state P = pending)) as [Hs|Hs].
      * rewrite (Resolve_pending _ _ _ _ _ _ H Hs). intros E.
        inversion E; subst. simpl. eexists.
        split; [eapply lookup_insert_here; eauto|]. split; reflexivity.
      * rewrite (Resolve_settled _ _ _ _ _ _ H Hs). discriminate.
    + rewrite (Resolve_nil _ _ _ _ _ H). discriminate.
  - intros v r w1. destruct (h !! p) as [P|] eqn:H.
    + destruct (decide (p_state P = pending)) as [Hs|Hs].
      * rewrite (Reject_pending _ _ _ _ _ _ H Hs). intros E.
        inversion E; subst. simpl. eexists.
        split; [eapply lookup_insert_here; eauto|]. split; reflexivity.
      * rewrite (Reject_settled _ _ _ _ _ _ H Hs). discriminate.
    + rewrite (Reject_nil _ _ _ _ _ H). discriminate.
  - intros P H Hs.
    destruct (perform_all_evolves acts (mkWorld h gs e)) as [K _].
    destruct (K _ _ H) as (P' & H' & E). destruct (E Hs) as [Es Ev].
    exists P'. repeat split; try assumption.
    + destruct (perform_all acts _) as [h' gs' e']. simpl in H'.
      rewrite <- Es. apply Resolve_settled; [exact H'|congruence].
    + destruct (perform_all acts _) as [h' gs' e']. simpl in H'.
      rewrite <- Es. apply Reject_settled; [exact H'|congruence].
Qed.

(** ** The queues of a settled promise *)

(** C8: [Then] on a pending promise appends the wrapped pair to the two
    queues; the call of [Resolve] or [Reject] that takes the promise out
    of [pending] hands one queue to the dispatcher and leaves both
    empty; whenever [Then], [Resolve] or [Reject] returns and the promise
    is not pending, both its queues are empty; and through any program a
    world in which every settled promise has empty queues stays so. *)
Theorem queues_empty_once_settled (p : loc) w :
  (forall P s f, heap w !! p = Some P -> p_state P = pending ->
     exists w' P',
       Then p s f w = (Ret (length (heap w)), w')
       /\ heap w' !! p = Some P' /\ p_state P' = pending
       /\ p_success P' = p_success P ++ [WrapSuccess (length (heap w)) s]
       /\ p_failure P' = p_failure P ++ [WrapFailure (length (heap w)) f]
       /\ goroutines w' = goroutines w)
  /\ (forall P v, heap w !! p = Some P -> p_state P = pending ->
       exists w1 w2 P1 P2,
         Resolve p v w = (Ret v, w1) /\ Reject p v w = (Ret v, w2)
         /\ heap w1 !! p = Some P1 /\ heap w2 !! p = Some P2
         /\ p_success P1 = [] /\ p_failure P1 = []
         /\ p_success P2 = [] /\ p_failure P2 = []
         /\ goroutines w1 = goroutines w ++ [GoSendSoon v (p_success P)]
         /\ goroutines w2 = goroutines w ++ [GoSendSoon v (p_failure P)])
  /\ (forall s f child w' P',
       Then p s f w = (Ret child, w') ->
       heap w' !! p = Some P' -> p_state P' <> pending ->
       p_success P' = [] /\ p_failure P' = [])
  /\ (forall v r w' P',
       Resolve p v w = (Ret r, w') \/ Reject p v w = (Ret r, w') ->
       heap w' !! p = Some P' -> p_state P' <> pending ->
       p_success P' = [] /\ p_failure P' = [])
  /\ (forall acts : list (@action Env),
       queues_drained w -> queues_drained (perform_all acts w)).
Proof.
  destruct w as [h gs e]. simpl. split; [|split; [|split; [|split]]].
  - intros P s f H Hs.
    assert (H' : (h ++ [zero_Promise]) !! p = Some P)
      by now apply lookup_app_l_Some.
    rewrite (Then_pending _ _ _ _ _ _ _ H' Hs).
    eexists _, _. split; [reflexivity|]. simpl.
    split; [eapply lookup_insert_here; eauto|]. simpl. tauto.
  - intros P v H Hs.
    rewrite (Resolve_pending _ _ _ _ _ _ H Hs).
    rewrite (Reject_pending _ _ _ _ _ _ H Hs).
    eexists _, _, _, _. split; [reflexivity|]. split; [reflexivity|]. simpl.
    split; [eapply lookup_insert_here; eauto|].
    split; [eapply lookup_insert_here; eauto|]. simpl. tauto.
  - intros s f child w' P'.
    destruct ((h ++ [zero_Promise]) !! p) as [P|] eqn:H.
    + destruct (decide (p_state P = pending)) as [Hs|Hs].
      * rewrite (Then_pending _ _ _ _ _ _ _ H Hs). intros E.
        inversion E; subst. simpl.
        rewrite (lookup_insert_here _ _ _ _ H). intros E'.
        inversion E'; subst. simpl. congruence.
      * rewrite (Then_settled _ _ _ _ _ _ _ H Hs). intros E.
        inversion E; subst. simpl.
        rewrite (lookup_insert_here _ _ _ _ H). intros E'.
        inversion E'; subst. simpl. tauto.
    + rewrite (Then_nil _ _ _ _ _ _ H). discriminate.
  - intros v r w' P'. destruct (h !! p) as [P|] eqn:H.
    + destruct (decide (p_state P = pending)) as [Hs|Hs].
      * rewrite (Resolve_pending _ _ _ _ _ _ H Hs).
        rewrite (Reject_pending _ _ _ _ _ _ H Hs).
        intros [E|E]; inversion E; subst; simpl;
          rewrite (lookup_insert_here _ _ _ _ H); intros E';
          inversion E'; subst; simpl; tauto.
      * rewrite (Resolve_settled _ _ _ _ _ _ H Hs).
        rewrite (Reject_settled _ _ _ _ _ _ H Hs).
        intros [E|E]; discriminate E.
    + rewrite (Resolve_nil _ _ _ _ _ H), (Reject_nil _ _ _ _ _ H).
      intros [E|E]; discriminate E.
  - intros acts. apply perform_all_evolves.
Qed.

(** ** The zero value of [Promise] *)

Lemma Promisify_allocates h gs (e : Env) fn args :
  Promisify fn args (mkWorld h gs e)
  = (Ret (length h),
     mkWorld (h ++ [zero_Promise]) (gs ++ [GoPromisify (length h) fn args]) e).
Proof. reflexivity. Qed.

(** C10: the zero value of [Promise] is pending, with a nil value and
    empty queues; on a promise that holds it, [Resolve], [Reject] and
    [Then] return and do what they do on every pending promise (the
    state and value are set and the queue goes to the dispatcher; the
    wrapped pair is appended); and it is the promise that [Promisify]
    and [Then] hand out. *)
Theorem zero_Promise_is_pending h gs (e : Env) (p : loc) :
  h !! p = Some zero_Promise ->
  (p_state (@zero_Promise Env) = pending
   /\ p_value (@zero_Promise Env) = VNil
   /\ p_success (@zero_Promise Env) = []
   /\ p_failure (@zero_Promise Env) = [])
  /\ (forall v,
        Resolve p v (mkWorld h gs e)
        = (Ret v, mkWorld (<[p := mkPromise fulfilled v [] []]> h)
                          (gs ++ [GoSendSoon v []]) e))
  /\ (forall v,
        Reject p v (mkWorld h gs e)
        = (Ret v, mkWorld (<[p := mkPromise rejected v [] []]> h)
                          (gs ++ [GoSendSoon v []]) e))
  /\ (forall s f,
        Then p s f (mkWorld h gs e)
        = (Ret (length h),
           mkWorld (<[p := mkPromise pending VNil
                             [WrapSuccess (length h) s]
                             [WrapFailure (length h) f]]>
                      (h ++ [zero_Promise])) gs e))
  /\ (forall P v, p_state P = pending ->
        Resolve p v (mkWorld (<[p := P]> h) gs e)
        = (Ret v, mkWorld (<[p := mkPromise fulfilled v [] []]> h)
                          (gs ++ [GoSendSoon v (p_success P)]) e)
        /\ Reject p v (mkWorld (<[p := P]> h) gs e)
           = (Ret v, mkWorld (<[p := mkPromise rejected v [] []]> h)
                             (gs ++ [GoSendSoon v (p_failure P)]) e))
  /\ (forall fn args,
        exists w', Promisify fn args (mkWorld h gs e) = (Ret (length h), w')
          /\ heap w' !! length h = Some zero_Promise)
  /\ (forall s f,
        exists w', Then p s f (mkWorld h gs e) = (Ret (length h), w')
          /\ heap w' !! length h = Some zero_Promise).
Proof.
  intros H.
  assert (H' : (h ++ [zero_Promise]) !! p = Some (@zero_Promise Env))
    by now apply lookup_app_l_Some.
  assert (Hfresh : (h ++ [@zero_Promise Env]) !! length h = Some zero_Promise).
  { rewrite lookup_app_r by lia. now rewrite Nat.sub_diag. }
  split; [repeat split|].
  split; [intros v; now rewrite (Resolve_pending _ _ _ _ _ _ H eq_refl)|].
  split; [intros v; now rewrite (Reject_pending _ _ _ _ _ _ H eq_refl)|].
  split; [intros s f; now rewrite (Then_pending _ _ _ _ _ _ _ H' eq_refl)|].
  split; [|split].
  - intros P v Hs.
    assert (HP : <[p := P]> h !! p = Some P)
      by (eapply lookup_insert_here; eauto).
    rewrite (Resolve_pending _ _ _ _ _ _ HP Hs).
    rewrite (Reject_pending _ _ _ _ _ _ HP Hs).
    now rewrite !list_insert_insert_eq.
  - intros fn args. rewrite Promisify_allocates. eexists.
    split; [reflexivity|exact Hfresh].
  - intros s f. rewrite (Then_pending _ _ _ _ _ _ _ H' eq_refl).
    eexists. split; [reflexivity|]. simpl.
    rewrite list_lookup_insert_ne; [exact Hfresh|].
    apply lookup_lt_Some in H. lia.
Qed.

(** ** Links without a callback *)

Lemma call_wrapped_success_Nil h gs (e : Env) child P val :
  h !! child = Some P -> p_state P = pending ->
  call (WrapSuccess child Nil) val (mkWorld h gs e)
  = (Ret val, mkWorld (<[child := mkPromise fulfilled val [] []]> h)
                      (gs ++ [GoSendSoon val (p_success P)]) e).
Proof.
  intros H Hs. rewrite call_WrapSuccess. unfold deferred_recover, bind.
  simpl. unfold user. simpl.
  now rewrite (Resolve_pending _ _ _ _ _ _ H Hs).
Qed.

Lemma call_wrapped_failure_Nil h gs (e : Env) child P val :
  h !! child = Some P -> p_state P = pending ->
  call (WrapFailure child Nil) val (mkWorld h gs e)
  = (Ret val, mkWorld (<[child := mkPromise rejected val [] []]> h)
                      (gs ++ [GoSendSoon val (p_failure P)]) e).
Proof.
  intros H Hs. rewrite call_WrapFailure. unfold bind.
  simpl. unfold user. simpl.
  now rewrite (Reject_pending _ _ _ _ _ _ H Hs).
Qed.

Lemma lookup_last_spawned gs (g : @Goroutine Env) :
  (gs ++ [g]) !! length gs = Some g.
Proof. rewrite lookup_app_r by lia. now rewrite Nat.sub_diag. Qed.

Lemma step_sendSoon h gs (e : Env) i val cb rest :
  gs !! i = Some (GoSendSoon val (cb :: rest)) ->
  step i (mkWorld h gs e)
  = Some (sendSoon_iter val cb
            (mkWorld h (<[i := GoSendSoon val rest]> gs) e)).
Proof. intros H. unfold step. simpl. now rewrite H. Qed.

Lemma sendSoon_iter_returns val c w r w' :
  is_nil c = false -> call c val w = (Ret r, w') ->
  sendSoon_iter val c w = (Ret tt, w').
Proof.
  intros N H. unfold sendSoon_iter, bind. rewrite N. simpl. now rewrite H.
Qed.

Lemma sendSoon_iter_panics val c w x w' :
  is_nil c = false -> call c val w = (Panic x, w') ->
  sendSoon_iter val c w = (Panic x, w').
Proof.
  intros N H. unfold sendSoon_iter, bind. rewrite N. simpl. now rewrite H.
Qed.

(** C6: a link made by [Then] without a success callback hands a
    fulfilment value to its child unchanged, and a link made without a
    failure callback hands a rejection reason to its child unchanged:
    when the dispatcher calls the wrapped pair of such a link, the child
    is fulfilled (rejected) with the very value (reason) of the parent;
    so it is for a link on a promise with no earlier callbacks that is
    then settled and dispatched. *)
Theorem absent_callback_passes_through h gs (e : Env) (p : loc) P v s f :
  h !! p = Some P -> p_state P = pending ->
  let child := length h in
  let w0 := mkWorld h gs e in
  (forall h' gs' (e' : Env) C val,
     h' !! child = Some C -> p_state C = pending ->
     call (fst (wrap child Nil f)) val (mkWorld h' gs' e')
     = (Ret val, mkWorld (<[child := mkPromise fulfilled val [] []]> h')
                         (gs' ++ [GoSendSoon val (p_success C)]) e')
     /\ call (snd (wrap child s Nil)) val (mkWorld h' gs' e')
        = (Ret val, mkWorld (<[child := mkPromise rejected val [] []]> h')
                            (gs' ++ [GoSendSoon val (p_failure C)]) e'))
  /\ (p_success P = [] ->
      exists w1 w2 w3,
        Then p Nil f w0 = (Ret child, w1)
        /\ Resolve p v w1 = (Ret v, w2)
        /\ step (length gs) w2 = Some (Ret tt, w3)
        /\ heap w3 !! child = Some (mkPromise fulfilled v [] []))
  /\ (p_failure P = [] ->
      exists w1 w2 w3,
        Then p s Nil w0 = (Ret child, w1)
        /\ Reject p v w1 = (Ret v, w2)
        /\ step (length gs) w2 = Some (Ret tt, w3)
        /\ heap w3 !! child = Some (mkPromise rejected v [] [])).
Proof.
  intros H Hs child w0.
  assert (Hlt : (p < length h)%nat) by (eapply lookup_lt_Some; eauto).
  assert (H' : (h ++ [zero_Promise]) !! p = Some P)
    by now apply lookup_app_l_Some.
  assert (Hchild : forall Q R : @Promise Env,
            <[p := Q]> (<[p := R]> (h ++ [zero_Promise])) !! child
            = Some zero_Promise).
  { intros Q R. rewrite !list_lookup_insert_ne by (unfold child; lia).
    unfold child. rewrite lookup_app_r by lia. now rewrite Nat.sub_diag. }
  assert (Hlen : forall Q R : @Promise Env,
            (child < length (<[p := Q]> (<[p := R]> (h ++ [zero_Promise]))))%nat).
  { intros Q R. rewrite !length_insert, length_app. simpl. unfold child. lia. }
  split; [|split].
  - intros h' gs' e' C val HC HCs. simpl. split.
    + apply call_wrapped_success_Nil; assumption.
    + apply call_wrapped_failure_Nil; assumption.
  - intros Hq. unfold w0.
    rewrite (Then_pending _ _ _ _ _ _ _ H' Hs).
    eexists _, _, _. split; [reflexivity|].
    erewrite Resolve_pending;
      [|eapply lookup_insert_here; eauto|exact Hs].
    split; [reflexivity|]. simpl. rewrite Hq. simpl.
    erewrite step_sendSoon by apply lookup_last_spawned.
    erewrite sendSoon_iter_returns;
      [|reflexivity
       |apply call_wrapped_success_Nil; [apply Hchild|reflexivity]].
    split; [reflexivity|]. simpl.
    apply list_lookup_insert_eq. apply Hlen.
  - intros Hq. unfold w0.
    rewrite (Then_pending _ _ _ _ _ _ _ H' Hs).
    eexists _, _, _. split; [reflexivity|].
    erewrite Reject_pending;
      [|eapply lookup_insert_here; eauto|exact Hs].
    split; [reflexivity|]. simpl. rewrite Hq. simpl.
    erewrite step_sendSoon by apply lookup_last_spawned.
    erewrite sendSoon_iter_returns;
      [|reflexivity
       |apply call_wrapped_failure_Nil; [apply Hchild|reflexivity]].
    split; [reflexivity|]. simpl.
    apply list_lookup_insert_eq. apply Hlen.
Qed.

(** ** The adapter *)

Lemma nth_last {A} (l : list A) (x d : A) :
  nth (length (l ++ [x]) - 1) (l ++ [x]) d = x.
Proof.
  rewrite length_app. simpl.
  replace (length l + 1 - 1)%nat with (length l) by lia.
  rewrite app_nth2 by lia. now rewrite Nat.sub_diag.
Qed.

Lemma take_last {A} (l : list A) (x : A) :
  take (length (l ++ [x]) - 1) (l ++ [x]) = l.
Proof.
  rewrite length_app. simpl.
  replace (length l + 1 - 1)%nat with (length l) by lia.
  rewrite take_app_length. reflexivity.
Qed.

Lemma hasLastError_true t :
  hasLastError t = true <-> exists init, Out_ t = init ++ [errorType].
Proof.
  unfold hasLastError, NumOut, Out.
  destruct (Out_ t) as [|last init _] using rev_ind.
  - simpl. split; [discriminate|]. intros [init E]. now destruct init.
  - rewrite nth_last.
    replace (length (init ++ [last]) =? 0)%nat with false
      by (rewrite length_app; simpl; symmetry; apply Nat.eqb_neq; lia).
    rewrite bool_decide_eq_true. split.
    + intros ->. now exists init.
    + intros [init' E]. apply app_inj_tail in E. tauto.
Qed.

Lemma hasLastError_no_results t : NumOut t = 0%nat -> hasLastError t = false.
Proof. unfold hasLastError. now intros ->. Qed.

Lemma zip_with_Val_app ts1 ts2 vs1 vs2 :
  length ts1 = length vs1 ->
  zip_with Val (ts1 ++ ts2) (vs1 ++ vs2)
  = zip_with Val ts1 vs1 ++ zip_with Val ts2 vs2.
Proof.
  revert vs1. induction ts1 as [|t ts1 IH]; intros [|v vs1] E;
    try discriminate; simpl; [reflexivity|].
  now rewrite IH by (simpl in E; lia).
Qed.

Lemma unReflectAll_zip ts : forall vs,
  length ts = length vs -> unReflectAll (zip_with Val ts vs) = Ret vs.
Proof.
  induction ts as [|t ts IH]; intros [|v vs] E; try discriminate;
    simpl; [reflexivity|].
  now rewrite IH by (simpl in E; lia).
Qed.

(** The three shapes of the result of [splitResults]. *)
Lemma splitResults_plain ts vs :
  length ts = length vs ->
  splitResults (zip_with Val ts vs) false = Ret (desliceOne vs, VNil).
Proof.
  intros E. unfold splitResults. simpl. now rewrite unReflectAll_zip.
Qed.

Lemma splitResults_failure ts vs msg :
  length ts = length vs ->
  splitResults (zip_with Val ts vs ++ [Val errorType (VError msg)]) true
  = Ret (desliceOne vs, VError msg).
Proof.
  intros E. unfold splitResults.
  replace (0 <? length (zip_with Val ts vs ++ [Val errorType (VError msg)]))%nat
    with true
    by (rewrite length_app; simpl; symmetry; apply Nat.ltb_lt; lia).
  rewrite nth_last, take_last. simpl. now rewrite unReflectAll_zip.
Qed.

Lemma splitResults_no_failure ts vs :
  length ts = length vs ->
  splitResults (zip_with Val ts vs ++ [Val errorType VNil]) true
  = Ret (desliceOne vs, VNil).
Proof.
  intros E. unfold splitResults.
  replace (0 <? length (zip_with Val ts vs ++ [Val errorType VNil]))%nat
    with true
    by (rewrite length_app; simpl; symmetry; apply Nat.ltb_lt; lia).
  rewrite nth_last, take_last. simpl. now rewrite unReflectAll_zip.
Qed.

Lemma Call_returns h gs (e e' : Env) f args vals :
  run f args e = (Ret vals, e') ->
  Call f args (mkWorld h gs e)
  = (Ret (zip_with Val (Out_ (Type_ f)) vals), mkWorld h gs e').
Proof.
  intros H. unfold Call, bind, user. simpl. now rewrite H.
Qed.

Lemma Call_panics h gs (e e' : Env) f args x :
  run f args e = (Panic x, e') ->
  Call f args (mkWorld h gs e) = (Panic x, mkWorld h gs e').
Proof.
  intros H. unfold Call, bind, user. simpl. now rewrite H.
Qed.

(** The results of a call whose declared last result is [error]. *)
Lemma results_with_failure_channel (f : @Func Env) vals x :
  hasLastError (Type_ f) = true ->
  length (vals ++ [x]) = NumOut (Type_ f) ->
  exists ts, length ts = length vals
    /\ zip_with Val (Out_ (Type_ f)) (vals ++ [x])
       = zip_with Val ts vals ++ [Val errorType x].
Proof.
  intros L E. apply hasLastError_true in L. destruct L as [ts L].
  unfold NumOut in E. rewrite L in *. rewrite !length_app in E. simpl in E.
  exists ts. split; [lia|]. rewrite zip_with_Val_app by lia. reflexivity.
Qed.

Lemma Promisify_go_fulfils h gs (e e' : Env) p P f args results value :
  h !! p = Some P -> p_state P = pending ->
  Call f (reflectAll args) (mkWorld h gs e) = (Ret results, mkWorld h gs e') ->
  splitResults results (hasLastError (Type_ f)) = Ret (value, VNil) ->
  Promisify_go p f args (mkWorld h gs e)
  = (Ret tt, mkWorld (<[p := mkPromise fulfilled value [] []]> h)
                     (gs ++ [GoSendSoon value (p_success P)]) e').
Proof.
  intros H Hs HC HS. unfold Promisify_go, bind at 1. rewrite HC.
  unfold bind at 1, lift. rewrite HS. simpl. unfold bind.
  now rewrite (Resolve_pending _ _ _ _ _ _ H Hs).
Qed.

Lemma Promisify_go_rejects h gs (e e' : Env) p P f args results value msg :
  h !! p = Some P -> p_state P = pending ->
  Call f (reflectAll args) (mkWorld h gs e) = (Ret results, mkWorld h gs e') ->
  splitResults results (hasLastError (Type_ f)) = Ret (value, VError msg) ->
  Promisify_go p f args (mkWorld h gs e)
  = (Ret tt, mkWorld (<[p := mkPromise rejected (VStr msg) [] []]> h)
                     (gs ++ [GoSendSoon (VStr msg) (p_failure P)]) e').
Proof.
  intros H Hs HC HS. unfold Promisify_go, bind at 1. rewrite HC.
  unfold bind at 1, lift. rewrite HS. simpl. unfold bind. simpl.
  now rewrite (Reject_pending _ _ _ _ _ _ H Hs).
Qed.

(** The func started by [Promisify] has no [recover]: a panic of the
    wrapped function leaves the goroutine, and the promise is as it
    was. *)
Lemma Promisify_go_panics h gs (e e' : Env) p f args x :
  run f (reflectAll args) e = (Panic x, e') ->
  Promisify_go p f args (mkWorld h gs e) = (Panic x, mkWorld h gs e').
Proof.
  intros H. unfold Promisify_go, bind at 1.
  now rewrite (Call_panics _ _ _ _ _ _ _ H).
Qed.

(** C1, as the code has it: when the declared last result of the wrapped
    function is [error] and a call returns a non-nil error there, the
    func started by [Promisify] rejects the promise with the text that
    the [Error()] method of that error returns, a string; the results
    before it have no part in the outcome. *)
Theorem failure_rejects_with_its_message
  h gs (e e' : Env) (p : loc) P f args vals msg :
  h !! p = Some P -> p_state P = pending ->
  hasLastError (Type_ f) = true ->
  run f (reflectAll args) e = (Ret (vals ++ [VError msg]), e') ->
  length (vals ++ [VError msg]) = NumOut (Type_ f) ->
  Promisify_go p f args (mkWorld h gs e)
  = (Ret tt, mkWorld (<[p := mkPromise rejected (VStr msg) [] []]> h)
                     (gs ++ [GoSendSoon (VStr msg) (p_failure P)]) e').
Proof.
  intros H Hs L R E.
  destruct (results_with_failure_channel f vals (VError msg) L E)
    as (ts & Ets & Z).
  eapply Promisify_go_rejects; eauto.
  - apply Call_returns. exact R.
  - rewrite L, Z. apply splitResults_failure. exact Ets.
Qed.

(** C7: when the call of the wrapped function returns and its failure
    channel, if it has one, holds nil, the func started by [Promisify]
    fulfils the promise with one value made of the results without the
    failure channel: nil for none, the result itself for one, and the
    slice of the results in their order for two or more. *)
Theorem outputs_fold_into_one_value
  h gs (e e' : Env) (p : loc) P f args outs vals :
  h !! p = Some P -> p_state P = pending ->
  run f (reflectAll args) e = (Ret vals, e') ->
  length vals = NumOut (Type_ f) ->
  vals = (if hasLastError (Type_ f) then outs ++ [VNil] else outs) ->
  exists value,
    Promisify_go p f args (mkWorld h gs e)
    = (Ret tt, mkWorld (<[p := mkPromise fulfilled value [] []]> h)
                       (gs ++ [GoSendSoon value (p_success P)]) e')
    /\ (outs = [] -> value = VNil)
    /\ (forall x, outs = [x] -> value = x)
    /\ ((2 <= length outs)%nat -> value = VSlice outs).
Proof.
  intros H Hs R E V. exists (desliceOne outs). split.
  - eapply Promisify_go_fulfils; eauto.
    + apply Call_returns. exact R.
    + destruct (hasLastError (Type_ f)) eqn:L; subst vals.
      * destruct (results_with_failure_channel f outs VNil L E)
          as (ts & Ets & Z).
        rewrite Z. apply splitResults_no_failure. exact Ets.
      * apply splitResults_plain. exact (eq_sym E).
  - unfold desliceOne. split; [|split].
    + now intros ->.
    + now intros x ->.
    + intros G. destruct outs as [|x [|y outs]]; simpl in G; try lia.
      reflexivity.
Qed.

(** C9: whether the last result is a failure channel is read off the
    declared type of the function alone: it is one exactly when there is
    a last declared result and its type is [error]; a function with no
    declared result has none; two functions of one type agree, whatever
    they return; and where the declared last type is not [error], a call
    that returns an error value there still fulfils the promise, with
    that value among the results. *)
Theorem failure_channel_is_structural :
  (forall t, hasLastError t = true
     <-> exists init, Out_ t = init ++ [errorType])
  /\ (forall t, NumOut t = 0%nat -> hasLastError t = false)
  /\ (forall t (run1 run2 : list Value -> Env -> outcome (list any) * Env),
        hasLastError (Type_ (mkFunc t run1))
        = hasLastError (Type_ (mkFunc t run2)))
  /\ (forall h gs (e e' : Env) p P f args vals,
        h !! p = Some P -> p_state P = pending ->
        hasLastError (Type_ f) = false ->
        run f (reflectAll args) e = (Ret vals, e') ->
        length vals = NumOut (Type_ f) ->
        Promisify_go p f args (mkWorld h gs e)
        = (Ret tt,
           mkWorld (<[p := mkPromise fulfilled (desliceOne vals) [] []]> h)
                   (gs ++ [GoSendSoon (desliceOne vals) (p_success P)]) e')).
Proof.
  split; [exact hasLastError_true|].
  split; [exact hasLastError_no_results|].
  split; [reflexivity|].
  intros h gs e e' p P f args vals H Hs L R E.
  eapply Promisify_go_fulfils; eauto.
  - apply Call_returns. exact R.
  - rewrite L. apply splitResults_plain. exact (eq_sym E).
Qed.

(** ** Panics of callbacks *)

(** The success closure of [wrap] stops a panic of the user's function
    and rejects the child with the panic value. *)
Lemma wrapped_success_recovers h gs (e e' : Env) child P f val x :
  h !! child = Some P -> p_state P = pending ->
  f val e = (Panic x, e') -> x <> VNil ->
  call (WrapSuccess child (Fn f)) val (mkWorld h gs e)
  = (Ret VNil, mkWorld (<[child := mkPromise rejected x [] []]> h)
                       (gs ++ [GoSendSoon x (p_failure P)]) e').
Proof.
  intros H Hs F N. simpl. unfold deferred_recover, bind, user. simpl.
  rewrite F. rewrite (Reject_pending _ _ _ _ _ _ H Hs).
  destruct x; try reflexivity. contradiction.
Qed.

(** The failure closure of [wrap] has no [recover]: a panic of the
    user's function leaves it, and the child is as it was. *)
Lemma wrapped_failure_panics h gs (e e' : Env) child f val x :
  f val e = (Panic x, e') ->
  call (WrapFailure child (Fn f)) val (mkWorld h gs e)
  = (Panic x, mkWorld h gs e').
Proof.
  intros F. simpl. unfold bind, user. simpl. now rewrite F.
Qed.

End Operations.

(** ** Every interleaving of a program *)

Section Interleavings.

Context {Env : Type}.

Lemma step_in_pool i (w : @World Env) r :
  step i w = Some r -> In i (seq 0 (length (goroutines w))).
Proof.
  unfold step. destruct (goroutines w !! i) eqn:H; [|discriminate].
  intros _. apply in_seq. apply lookup_lt_Some in H. lia.
Qed.

Lemma all_runs_sound (Q : outcome unit -> bool -> @World Env -> bool) fuel :
  forall main w, all_runs fuel Q main w = true ->
  forall moves o done w',
    interleave moves main w = Some (o, done, w') -> Q o done w' = true.
Proof.
  induction fuel as [|n IH]; intros main w HA moves o done w' HI;
    simpl in HA; apply andb_true_iff in HA; destruct HA as [HQ HA].
  - apply andb_true_iff in HA. destruct HA as [Hd Hg].
    destruct moves as [|[|i] rest]; simpl in HI.
    + inversion HI; subst. exact HQ.
    + destruct main; [discriminate HI|discriminate Hd].
    + unfold step in HI. destruct (goroutines w); [|discriminate Hg].
      discriminate HI.
  - apply andb_true_iff in HA. destruct HA as [Hm Hg].
    destruct moves as [|[|i] rest]; simpl in HI.
    + inversion HI; subst. exact HQ.
    + destruct main as [|A m k]; [discriminate HI|].
      destruct (m w) as [[a|x] w1].
      * eapply IH; eauto.
      * inversion HI; subst. exact Hm.
    + destruct (step i w) as [[[[]|x] w1]|] eqn:E; [| |discriminate HI].
      * pose proof (proj1 (forallb_forall _ _) Hg i (step_in_pool _ _ _ E))
          as Hi.
        simpl in Hi. rewrite E in Hi. eapply IH; eauto.
      * pose proof (proj1 (forallb_forall _ _) Hg i (step_in_pool _ _ _ E))
          as Hi.
        simpl in Hi. rewrite E in Hi. inversion HI; subst. exact Hi.
Qed.

End Interleavings.

(** ** The chain of the tests *)

Lemma is_prefix_spec (l1 l2 : Log) :
  is_prefix l1 l2 = true -> exists rest, l1 ++ rest = l2.
Proof.
  revert l2. induction l1 as [|x l1 IH]; intros l2 H.
  - now exists l2.
  - destruct l2 as [|y l2]; [discriminate|]. simpl in H.
    apply andb_true_iff in H. destruct H as [E H].
    apply bool_decide_eq_true in E. subst y.
    destruct (IH _ H) as [rest R]. exists rest. simpl. now rewrite R.
Qed.

Lemma chain_test_checked (k : nat) :
  (k <= 3)%nat -> all_runs 16 chain_check (chain_test k) (start []) = true.
Proof.
  intros Hk. destruct k as [|[|[|[|k]]]]; try lia; vm_compute; reflexivity.
Qed.

(** C5: with [f_i] the handler that notes its input and returns it plus
    one, the program that makes the chain [root.Then(f1).Then(f2).Then(f3)]
    and resolves [root] with 1, before, between or after the links, runs
    without panic under every interleaving of its goroutines;
    at each moment the handlers have been called with a prefix of
    1 (f1), 2 (f2), 3 (f3), in this order, and with all three once
    nothing is left to run; and some interleaving runs to that end. *)
Theorem chain_observes_1_2_3 (k : nat) (moves : list move) o done w :
  (k <= 3)%nat ->
  interleave moves (chain_test k) (start []) = Some (o, done, w) ->
  o = Ret tt
  /\ (exists rest, env w ++ rest = seen_1_2_3)
  /\ (done = true -> goroutines w = [] -> env w = seen_1_2_3)
  /\ (exists moves' w',
        interleave moves' (chain_test k) (start []) = Some (Ret tt, true, w')
        /\ goroutines w' = [] /\ env w' = seen_1_2_3).
Proof.
  intros Hk HI.
  pose proof (all_runs_sound chain_check 16 _ _ (chain_test_checked k Hk)
                _ _ _ _ HI) as HQ.
  unfold chain_check in HQ.
  apply andb_true_iff in HQ. destruct HQ as [HQ H3].
  apply andb_true_iff in HQ. destruct HQ as [H1 H2].
  split; [destruct o as [[]|x]; [reflexivity|discriminate]|].
  split; [now apply is_prefix_spec|].
  split.
  - intros -> Hg. rewrite Hg in H3. simpl in H3.
    now apply bool_decide_eq_true in H3.
  - exists ([Main; Main; Main; Main; Main]
            ++ repeat (Go 0) (if (k =? 0)%nat then 8 else 7)).
    destruct k as [|[|[|[|k]]]]; try lia;
      eexists; (split; [vm_compute; reflexivity|split; reflexivity]).
Qed.

(** X19: the chain of [TestPromiseRejected]: the failure handlers are called
    with 1, 2, 3 in this order under every interleaving, and no run
    panics. *)
Lemma rejected_chain_observes_1_2_3 (moves : list move) o done w :
  interleave moves chain_test_rejected (start []) = Some (o, done, w) ->
  o = Ret tt
  /\ (exists rest, env w ++ rest = seen_1_2_3)
  /\ (done = true -> goroutines w = [] -> env w = seen_1_2_3).
Proof.
  intros HI.
  assert (HA : all_runs 16 chain_check chain_test_rejected (start []) = true)
    by (vm_compute; reflexivity).
  pose proof (all_runs_sound chain_check 16 _ _ HA _ _ _ _ HI) as HQ.
  unfold chain_check in HQ.
  apply andb_true_iff in HQ. destruct HQ as [HQ H3].
  apply andb_true_iff in HQ. destruct HQ as [H1 H2].
  split; [destruct o as [[]|x]; [reflexivity|discriminate]|].
  split; [now apply is_prefix_spec|].
  intros -> Hg. rewrite Hg in H3. simpl in H3.
  now apply bool_decide_eq_true in H3.
Qed.

(** ** The adapter on sample functions *)

(** C1, as the claim states it, fails: for a function that returns
    [7, errors.New("boom")], the promise is rejected with the string
    ["boom"], which is not the error value. *)
Lemma reason_is_not_the_failure_value :
  exists w P,
    interleave [Main; Go 0] (promisify_test boom []) (start tt)
    = Some (Ret tt, true, w)
    /\ heap w !! 0%nat = Some P
    /\ p_state P = rejected
    /\ p_value P = VStr "boom"
    /\ p_value P <> VError "boom".
Proof.
  eexists _, _. split; [vm_compute; reflexivity|].
  split; [reflexivity|]. split; [reflexivity|]. split; [reflexivity|].
  simpl. discriminate.
Qed.

Lemma failure_rejects_with_its_message_witness :
  Promisify_go 0 boom [] (mkWorld [zero_Promise] [] tt)
  = (Ret tt,
     mkWorld [mkPromise rejected (VStr "boom") [] []]
             [GoSendSoon (VStr "boom") []] tt).
Proof.
  apply (failure_rejects_with_its_message
           [zero_Promise] [] tt tt 0%nat zero_Promise boom [] [VInt 7] "boom");
    reflexivity.
Defined.

Lemma outputs_fold_into_one_value_witness :
  exists value,
    Promisify_go 0 seven [] (mkWorld [zero_Promise] [] tt)
    = (Ret tt,
       mkWorld [mkPromise fulfilled value [] []] [GoSendSoon value []] tt)
    /\ value = VInt 7.
Proof.
  destruct (outputs_fold_into_one_value
              [zero_Promise] [] tt tt 0%nat zero_Promise seven []
              [VInt 7] [VInt 7; VNil]
              eq_refl eq_refl eq_refl eq_refl eq_refl)
    as (value & H & _ & H1 & _).
  exists value. split; [exact H|]. apply H1. reflexivity.
Defined.

Lemma failure_channel_is_structural_witness :
  hasLastError (Type_ boom_as_value) = false
  /\ Promisify_go 0 boom_as_value [] (mkWorld [zero_Promise] [] tt)
     = (Ret tt,
        mkWorld [mkPromise fulfilled (VError "boom") [] []]
                [GoSendSoon (VError "boom") []] tt).
Proof.
  split; [reflexivity|].
  apply (proj2 (proj2 (proj2 failure_channel_is_structural))
           [zero_Promise] [] tt tt 0%nat zero_Promise boom_as_value []
           [VError "boom"]);
    reflexivity.
Defined.

(** C2: the package says that a panic of the wrapped function rejects
    the promise with the panic value; in the code the panic of
    [func() { panic("oops") }] leaves the goroutine that [Promisify]
    started, which ends the program, and the promise is still the
    pending zero value. *)
Theorem Promisify_panic_escapes :
  exists w,
    interleave [Main; Go 0] (promisify_test oops []) (start tt)
    = Some (Panic (VStr "oops"), true, w)
    /\ heap w !! 0%nat = Some zero_Promise.
Proof. eexists. split; [vm_compute; reflexivity|reflexivity]. Qed.

(** ** Panics of callbacks in a dispatch *)

(** C3: a panic of the failure callback of a link is not recovered: it
    leaves the goroutine of [sendSoon], which ends the program, and the
    child stays pending; the same panic of a success callback is
    recovered and rejects the child with the panic value. *)
Theorem failure_callback_panic_escapes :
  (exists w,
     interleave [Main; Main; Main; Go 0] then_failure_panics (start tt)
     = Some (Panic (VStr "oops"), true, w)
     /\ heap w !! 1%nat = Some zero_Promise)
  /\ (exists w,
       interleave [Main; Main; Main; Go 0] then_success_panics (start tt)
       = Some (Ret tt, true, w)
       /\ heap w !! 1%nat = Some (mkPromise rejected (VStr "oops") [] [])).
Proof.
  split; eexists; (split; [vm_compute; reflexivity|reflexivity]).
Qed.

(** ** Instances *)

Lemma settle_at_most_once_witness :
  let w := mkWorld [mkPromise fulfilled (VInt 1) [] []] [] tt in
  let w' := perform_all [DoThen 0 Nil Nil; DoStep 0] w in
  exists P', heap w' !! 0%nat = Some P'
    /\ p_state P' = fulfilled /\ p_value P' = VInt 1
    /\ forall v,
         Resolve 0 v w' = (Panic (not_pending fulfilled), w')
         /\ Reject 0 v w' = (Panic (not_pending fulfilled), w').
Proof.
  intros w w'.
  exact (proj2 (proj2 (proj2
           (settle_at_most_once 0 [DoThen 0 Nil Nil; DoStep 0] w)))
           (mkPromise fulfilled (VInt 1) [] []) eq_refl
           ltac:(discriminate)).
Defined.

Lemma queues_empty_once_settled_witness :
  exists w' P',
    Then 0 (Fn (@panicIfCalled unit)) Nil (mkWorld [zero_Promise] [] tt)
    = (Ret 1%nat, w')
    /\ heap w' !! 0%nat = Some P' /\ p_state P' = pending
    /\ p_success P' = [WrapSuccess 1 (Fn panicIfCalled)]
    /\ p_failure P' = [WrapFailure 1 Nil]
    /\ goroutines w' = [].
Proof.
  exact (proj1 (queues_empty_once_settled 0 (mkWorld [zero_Promise] [] tt))
           zero_Promise (Fn panicIfCalled) Nil eq_refl eq_refl).
Defined.

Lemma zero_Promise_is_pending_witness :
  Resolve 0 (VInt 5) (mkWorld [zero_Promise] [] tt)
  = (Ret (VInt 5),
     mkWorld [mkPromise fulfilled (VInt 5) [] []]
             [GoSendSoon (VInt 5) []] tt).
Proof.
  exact (proj1 (proj2 (zero_Promise_is_pending [zero_Promise] [] tt 0
                         eq_refl)) (VInt 5)).
Defined.

Lemma absent_callback_passes_through_witness :
  exists w1 w2 w3,
    Then 0 Nil Nil (mkWorld [zero_Promise] [] tt) = (Ret 1%nat, w1)
    /\ Reject 0 (VInt 5) w1 = (Ret (VInt 5), w2)
    /\ step 0 w2 = Some (Ret tt, w3)
    /\ heap w3 !! 1%nat = Some (mkPromise rejected (VInt 5) [] []).
Proof.
  exact (proj2 (proj2 (absent_callback_passes_through
                         [zero_Promise] [] tt 0 zero_Promise (VInt 5) Nil Nil
                         eq_refl eq_refl)) eq_refl).
Defined.

Lemma chain_observes_1_2_3_witness :
  let w := mkWorld [mkPromise fulfilled (VInt 1) [] [];
                    mkPromise fulfilled (VInt 2) [] [];
                    mkPromise fulfilled (VInt 3) [] [];
                    mkPromise fulfilled (VInt 4) [] []] [] seen_1_2_3 in
  interleave ([Main; Main; Main; Main; Main] ++ repeat (Go 0) 7)
    (chain_test 3) (start [])
  = Some (Ret tt, true, w)
  /\ env w = seen_1_2_3.
Proof.
  intros w.
  assert (E : interleave ([Main; Main; Main; Main; Main] ++ repeat (Go 0) 7)
                (chain_test 3) (start [])
              = Some (Ret tt, true, w))
    by (vm_compute; reflexivity).
  split; [exact E|].
  destruct (chain_observes_1_2_3 3 _ _ _ _ (le_n 3) E) as (_ & _ & H & _).
  apply H; reflexivity.
Defined.

(** * Further properties of the code *)

Section Further.

Context {Env : Type}.
Implicit Types (w : @World Env) (P : @Promise Env) (c : @Callback Env).
Implicit Types (h : list (@Promise Env)) (gs : list (@Goroutine Env)).

(** ** Two equations for what follows *)

Lemma call_wrapped_returns
  (c : @Callback Env) (child : loc) val w r h1 gs1 (e1 : Env) P :
  call (safe c) val w = (Ret r, mkWorld h1 gs1 e1) ->
  h1 !! child = Some P -> p_state P = pending ->
  call (WrapSuccess child c) val w
  = (Ret r, mkWorld (<[child := mkPromise fulfilled r [] []]> h1)
                    (gs1 ++ [GoSendSoon r (p_success P)]) e1)
  /\ call (WrapFailure child c) val w
     = (Ret r, mkWorld (<[child := mkPromise rejected r [] []]> h1)
                       (gs1 ++ [GoSendSoon r (p_failure P)]) e1).
Proof.
  intros HC H Hs. rewrite call_WrapSuccess, call_WrapFailure.
  unfold deferred_recover, bind. rewrite HC.
  rewrite (Resolve_pending _ _ _ _ _ _ H Hs).
  rewrite (Reject_pending _ _ _ _ _ _ H Hs). split; reflexivity.
Qed.

Lemma Then_settled_drained
  h gs (e : Env) (p : loc) st v (s f : @Callback Env) :
  h !! p = Some (mkPromise st v [] []) ->
  st = fulfilled \/ st = rejected ->
  Then p s f (mkWorld h gs e)
  = (Ret (length h),
     mkWorld (h ++ [zero_Promise])
             (gs ++ [GoSendSoon v [if st =? fulfilled
                                   then WrapSuccess (length h) s
                                   else WrapFailure (length h) f]]) e).
Proof.
  intros H Hst.
  assert (H' : (h ++ [zero_Promise]) !! p = Some (mkPromise st v [] []))
    by now apply lookup_app_l_Some.
  rewrite (Then_settled _ _ _ _ _ _ _ H')
    by (destruct Hst as [-> | ->]; discriminate).
  simpl. rewrite list_insert_id by exact H'.
  destruct Hst as [-> | ->]; reflexivity.
Qed.

(** ** What the operations leave alone *)

(** X1: [Resolve] and [Reject] run no user function and touch no other
    promise: whatever the outcome, the state of the caller's program and
    every other record are as before, no record is added, and the pool
    has grown by at most one goroutine, at its end; and when they
    return, they return their argument. *)
Theorem settlement_is_local (p : loc) (v : any) w o w' :
  Resolve p v w = (o, w') \/ Reject p v w = (o, w') ->
  env w' = env w
  /\ length (heap w') = length (heap w)
  /\ (forall q, q <> p -> heap w' !! q = heap w !! q)
  /\ (exists new, goroutines w' = goroutines w ++ new
                  /\ (length new <= 1)%nat)
  /\ (forall r, o = Ret r -> r = v).
Proof.
  destruct w as [h gs e]. simpl.
  assert (Hnone : goroutines (mkWorld h gs e) = gs ++ [] /\ (0 <= 1)%nat)
    by (simpl; rewrite app_nil_r; split; [reflexivity|lia]).
  destruct (h !! p) as [P|] eqn:H.
  - destruct (decide (p_state P = pending)) as [Hs|Hs].
    + rewrite (Resolve_pending _ _ _ _ _ _ H Hs).
      rewrite (Reject_pending _ _ _ _ _ _ H Hs).
      intros [E|E]; inversion E; subst; simpl;
        (split; [reflexivity|]); (split; [apply length_insert|]);
        (split; [intros q N; now apply list_lookup_insert_ne|]);
        (split; [eexists; split; [reflexivity|simpl; lia]|]);
        intros r R; now inversion R.
    + rewrite (Resolve_settled _ _ _ _ _ _ H Hs).
      rewrite (Reject_settled _ _ _ _ _ _ H Hs).
      intros [E|E]; inversion E; subst; simpl;
        (split; [reflexivity|]); (split; [reflexivity|]);
        (split; [reflexivity|]);
        (split; [exists []; exact Hnone|]); discriminate.
  - rewrite (Resolve_nil _ _ _ _ _ H), (Reject_nil _ _ _ _ _ H).
    intros [E|E]; inversion E; subst; simpl;
      (split; [reflexivity|]); (split; [reflexivity|]);
      (split; [reflexivity|]);
      (split; [exists []; exact Hnone|]); discriminate.
Qed.

(** X2: [Then] runs no user function either: whatever the outcome, the state
    of the caller's program and every record but that of [p] are as
    before, exactly one record has been added, the pool has grown by at
    most one goroutine; and when [Then] returns on a promise that was
    there, it returns the address of the added record, which holds the
    pending zero value. *)
Theorem Then_is_local (p : loc) (s f : @Callback Env) w o w' :
  Then p s f w = (o, w') ->
  env w' = env w
  /\ length (heap w') = S (length (heap w))
  /\ (forall q, q <> p -> (q < length (heap w))%nat ->
        heap w' !! q = heap w !! q)
  /\ (exists new, goroutines w' = goroutines w ++ new
                  /\ (length new <= 1)%nat)
  /\ ((p < length (heap w))%nat ->
      o = Ret (length (heap w))
      /\ heap w' !! length (heap w) = Some zero_Promise).
Proof.
  destruct w as [h gs e]. simpl.
  assert (Hlen : length (h ++ [@zero_Promise Env]) = S (length h))
    by (rewrite length_app; simpl; lia).
  assert (Hold : forall q, (q < length h)%nat ->
            (h ++ [@zero_Promise Env]) !! q = h !! q)
    by (intros q L; now apply lookup_app_l).
  assert (Hnew : (h ++ [@zero_Promise Env]) !! length h = Some zero_Promise)
    by (rewrite lookup_app_r by lia; now rewrite Nat.sub_diag).
  destruct ((h ++ [zero_Promise]) !! p) as [P|] eqn:H.
  - destruct (decide (p_state P = pending)) as [Hs|Hs].
    + rewrite (Then_pending _ _ _ _ _ _ _ H Hs). intros E.
      inversion E; subst; simpl.
      split; [reflexivity|]. split; [now rewrite length_insert|].
      split; [intros q N L; rewrite list_lookup_insert_ne by congruence;
              now apply Hold|].
      split; [exists []; rewrite app_nil_r; split; [reflexivity|simpl; lia]|].
      intros L. split; [reflexivity|].
      rewrite list_lookup_insert_ne by lia. exact Hnew.
    + rewrite (Then_settled _ _ _ _ _ _ _ H Hs). intros E.
      inversion E; subst; simpl.
      split; [reflexivity|]. split; [now rewrite length_insert|].
      split; [intros q N L; rewrite list_lookup_insert_ne by congruence;
              now apply Hold|].
      split.
      { eexists. split; [reflexivity|]. unfold dispatch.
        destruct (_ =? fulfilled); [simpl; lia|].
        destruct (_ =? rejected); simpl; lia. }
      intros L. split; [reflexivity|].
      rewrite list_lookup_insert_ne by lia. exact Hnew.
  - rewrite (Then_nil _ _ _ _ _ _ H). intros E.
    inversion E; subst; simpl.
    split; [reflexivity|]. split; [exact Hlen|].
    split; [intros q _ L; now apply Hold|].
    split; [exists []; rewrite app_nil_r; split; [reflexivity|simpl; lia]|].
    intros L. apply lookup_ge_None_1 in H. rewrite Hlen in H. lia.
Qed.

(** ** The closures of [wrap] *)

(** X3: when the callback of a link returns [r] and the child is pending,
    the success closure fulfils the child with [r] and the failure
    closure rejects the child with [r]; each returns [r] and hands the
    matching queue of the child to a new goroutine. *)
Theorem wrapped_callbacks_settle_child
  (c : @Callback Env) (child : loc) val w r h1 gs1 (e1 : Env) P :
  call (safe c) val w = (Ret r, mkWorld h1 gs1 e1) ->
  h1 !! child = Some P -> p_state P = pending ->
  call (WrapSuccess child c) val w
  = (Ret r, mkWorld (<[child := mkPromise fulfilled r [] []]> h1)
                    (gs1 ++ [GoSendSoon r (p_success P)]) e1)
  /\ call (WrapFailure child c) val w
     = (Ret r, mkWorld (<[child := mkPromise rejected r [] []]> h1)
                       (gs1 ++ [GoSendSoon r (p_failure P)]) e1).
Proof.
  intros HC H Hs. rewrite call_WrapSuccess, call_WrapFailure.
  unfold deferred_recover, bind. rewrite HC.
  rewrite (Resolve_pending _ _ _ _ _ _ H Hs).
  rewrite (Reject_pending _ _ _ _ _ _ H Hs). split; reflexivity.
Qed.

(** X4: when the child of a link has been settled by other means before the
    dispatcher calls the closures of the link, both closures panic once
    the callback has returned: in the success closure the panic of
    [Resolve] is recovered and answered by [Reject], which panics in
    turn.  The panic value is the error of [commit], and the child is as
    it was. *)
Theorem wrapped_callbacks_on_settled_child
  (c : @Callback Env) (child : loc) val w r h1 gs1 (e1 : Env) P :
  call (safe c) val w = (Ret r, mkWorld h1 gs1 e1) ->
  h1 !! child = Some P -> p_state P <> pending ->
  call (WrapSuccess child c) val w
  = (Panic (not_pending (p_state P)), mkWorld h1 gs1 e1)
  /\ call (WrapFailure child c) val w
     = (Panic (not_pending (p_state P)), mkWorld h1 gs1 e1).
Proof.
  intros HC H Hs. rewrite call_WrapSuccess, call_WrapFailure.
  unfold deferred_recover, bind. rewrite HC. split.
  - rewrite (Resolve_settled _ _ _ _ _ _ H Hs). unfold not_pending.
    now rewrite (Reject_settled _ _ _ _ _ _ H Hs).
  - now rewrite (Reject_settled _ _ _ _ _ _ H Hs).
Qed.

(** ** [Then] on a settled promise *)

(** X5: [Then] on a promise that is fulfilled (rejected) leaves its record as
    it is and starts one goroutine that holds the value of the promise
    and the new success (failure) closure alone; the other closure is
    dropped. *)
Theorem Then_on_settled_dispatches_new_pair
  h gs (e : Env) (p : loc) st v (s f : @Callback Env) :
  h !! p = Some (mkPromise st v [] []) ->
  st = fulfilled \/ st = rejected ->
  Then p s f (mkWorld h gs e)
  = (Ret (length h),
     mkWorld (h ++ [zero_Promise])
             (gs ++ [GoSendSoon v [if st =? fulfilled
                                   then WrapSuccess (length h) s
                                   else WrapFailure (length h) f]]) e).
Proof.
  intros H Hst.
  assert (H' : (h ++ [zero_Promise]) !! p = Some (mkPromise st v [] []))
    by now apply lookup_app_l_Some.
  rewrite (Then_settled _ _ _ _ _ _ _ H')
    by (destruct Hst as [-> | ->]; discriminate).
  simpl. rewrite list_insert_id by exact H'.
  destruct Hst as [-> | ->]; reflexivity.
Qed.

(** X6: a callback given to [Then] after the promise has been fulfilled is
    not called by [Then]; it is called with the value of the promise by
    the goroutine that [Then] has started, and its result fulfils the
    child.  On a rejected promise the same holds for the failure
    callback, whose result rejects the child. *)
Theorem late_Then_is_served
  h gs (e e' : Env) (p : loc) v f g r :
  f v e = (Ret r, e') ->
  (h !! p = Some (mkPromise fulfilled v [] []) ->
   exists w1 w2,
     Then p (Fn f) g (mkWorld h gs e) = (Ret (length h), w1)
     /\ env w1 = e
     /\ step (length gs) w1 = Some (Ret tt, w2)
     /\ env w2 = e'
     /\ heap w2 !! length h = Some (mkPromise fulfilled r [] []))
  /\ (h !! p = Some (mkPromise rejected v [] []) ->
      exists w1 w2,
        Then p g (Fn f) (mkWorld h gs e) = (Ret (length h), w1)
        /\ env w1 = e
        /\ step (length gs) w1 = Some (Ret tt, w2)
        /\ env w2 = e'
        /\ heap w2 !! length h = Some (mkPromise rejected r [] [])).
Proof.
  intros F.
  assert (Hnew : (h ++ [@zero_Promise Env]) !! length h = Some zero_Promise)
    by (rewrite lookup_app_r by lia; now rewrite Nat.sub_diag).
  assert (HC : forall gs', call (safe (Fn f)) v (mkWorld (h ++ [zero_Promise]) gs' e)
               = (Ret r, mkWorld (h ++ [zero_Promise]) gs' e')).
  { intros gs'. simpl. unfold user. simpl. now rewrite F. }
  assert (Hlt : (length h < length (h ++ [@zero_Promise Env]))%nat)
    by (rewrite length_app; simpl; lia).
  split; intros H.
  - rewrite (Then_settled_drained _ _ _ _ _ _ _ _ H
               (or_introl eq_refl)).
    eexists _, _. split; [reflexivity|]. split; [reflexivity|]. simpl.
    erewrite step_sendSoon by apply lookup_last_spawned.
    erewrite sendSoon_iter_returns;
      [|reflexivity
       |apply (call_wrapped_returns _ _ _ _ _ _ _ _ _
                 (HC _) Hnew eq_refl)].
    split; [reflexivity|]. split; [reflexivity|]. simpl.
    now apply list_lookup_insert_eq.
  - rewrite (Then_settled_drained _ _ _ _ _ _ _ _ H
               (or_intror eq_refl)).
    eexists _, _. split; [reflexivity|]. split; [reflexivity|]. simpl.
    erewrite step_sendSoon by apply lookup_last_spawned.
    erewrite sendSoon_iter_returns;
      [|reflexivity
       |apply (call_wrapped_returns _ _ _ _ _ _ _ _ _
                 (HC _) Hnew eq_refl)].
    split; [reflexivity|]. split; [reflexivity|]. simpl.
    now apply list_lookup_insert_eq.
Qed.

(** ** The loop of [sendSoon] *)


(** X8: [sendSoon] passes over the nil entries of the list: the loop does
    what it does on the list without them. *)
Theorem sendSoon_skips_nil val (cbs : list (@Callback Env)) w :
  sendSoon val cbs w
  = sendSoon val (List.filter (fun c => negb (is_nil c)) cbs) w.
Proof.
  revert w. induction cbs as [|cb cbs IH]; intros w; simpl; [reflexivity|].
  destruct cb; simpl; unfold bind;
    try (destruct (sendSoon_iter val _ w) as [[[]|x] w1];
         [apply IH|reflexivity]).
  unfold sendSoon_iter. simpl. apply IH.
Qed.

(** ** The pool of goroutines *)

Lemma prepend_prepend {A} gs1 gs2 (r : outcome A * @World Env) :
  prepend gs1 (prepend gs2 r) = prepend (gs1 ++ gs2) r.
Proof. unfold prepend. simpl. now rewrite app_assoc. Qed.

Lemma appends_ret {A} (a : A) : appends (@ret Env A a).
Proof. intros h gs e. unfold prepend, ret. simpl. now rewrite app_nil_r. Qed.

Lemma appends_panic {A} x : appends (@panic Env A x).
Proof. intros h gs e. unfold prepend, panic. simpl. now rewrite app_nil_r. Qed.

Lemma appends_lift {A} (o : outcome A) : appends (@lift Env A o).
Proof. intros h gs e. unfold prepend, lift. simpl. now rewrite app_nil_r. Qed.

Lemma appends_bind {A B} (m : @M Env A) (k : A -> @M Env B) :
  appends m -> (forall a, appends (k a)) -> appends (bind m k).
Proof.
  intros Hm Hk h gs e. unfold bind. rewrite (Hm h gs e).
  destruct (m (mkWorld h [] e)) as [[a|x] [h1 g1 e1]]; simpl.
  - rewrite (Hk a h1 (gs ++ g1) e1), (Hk a h1 g1 e1).
    now rewrite prepend_prepend.
  - reflexivity.
Qed.

Lemma appends_load p : appends (@load Env p).
Proof.
  intros h gs e. unfold load, prepend. simpl.
  destruct (h !! p); simpl; now rewrite app_nil_r.
Qed.

Lemma appends_store p P : appends (@store Env p P).
Proof. intros h gs e. unfold store, prepend. simpl. now rewrite app_nil_r. Qed.

Lemma appends_go (g : @Goroutine Env) : appends (go g).
Proof. intros h gs e. reflexivity. Qed.

Lemma appends_user {A} (f : Env -> outcome A * Env) : appends (user f).
Proof.
  intros h gs e. unfold user, prepend. simpl.
  destruct (f e). simpl. now rewrite app_nil_r.
Qed.

Lemma appends_new_Promise : appends (@new_Promise Env).
Proof.
  intros h gs e. unfold new_Promise, prepend. simpl. now rewrite app_nil_r.
Qed.

Lemma appends_assign p (f : @Promise Env -> @Promise Env) :
  appends (assign p f).
Proof.
  apply appends_bind; [apply appends_load|intros P; apply appends_store].
Qed.

Lemma appends_commit p s val (cbs : list (@Callback Env)) :
  appends (commit p s val cbs).
Proof.
  apply appends_bind; [apply appends_load|]. intros P.
  destruct (negb _); [apply appends_panic|].
  apply appends_bind; intros; apply appends_assign.
Qed.

Lemma appends_flush p : appends (@flush Env p).
Proof.
  apply appends_bind; [apply appends_load|]. intros P.
  destruct (_ =? pending); [apply appends_ret|].
  apply appends_bind.
  - destruct (_ =? fulfilled); [apply appends_go|].
    destruct (_ =? rejected); [apply appends_go|apply appends_ret].
  - intros _. apply appends_bind; intros; apply appends_assign.
Qed.

Lemma appends_Resolve p v : appends (@Resolve Env p v).
Proof.
  apply appends_bind; [apply appends_load|]. intros P.
  apply appends_bind; [apply appends_commit|]. intros _.
  apply appends_bind; [apply appends_flush|]. intros _. apply appends_ret.
Qed.

Lemma appends_Reject p v : appends (@Reject Env p v).
Proof.
  apply appends_bind; [apply appends_load|]. intros P.
  apply appends_bind; [apply appends_commit|]. intros _.
  apply appends_bind; [apply appends_flush|]. intros _. apply appends_ret.
Qed.

Lemma appends_deferred_recover handler (body : @M Env any) :
  (forall x, appends (handler x)) -> appends body ->
  appends (deferred_recover handler body).
Proof.
  intros Hh Hb h gs e. unfold deferred_recover. rewrite (Hb h gs e).
  destruct (body (mkWorld h [] e)) as [[v|x] [h1 g1 e1]]; simpl;
    [reflexivity|].
  destruct x; try reflexivity;
    rewrite (Hh _ h1 (gs ++ g1) e1), (Hh _ h1 g1 e1);
    destruct (handler _ (mkWorld h1 [] e1)) as [[?|?] [h2 g2 e2]];
    unfold prepend; simpl; now rewrite app_assoc.
Qed.

Lemma appends_call c : forall val, appends (call c val).
Proof.
  induction c as [|f|p c IH|p c IH]; intros val.
  - apply appends_panic.
  - apply appends_user.
  - rewrite call_WrapSuccess. apply appends_deferred_recover.
    + intros x. apply appends_Reject.
    + apply appends_bind; [|intros r; apply appends_Resolve].
      rewrite call_safe. destruct c; try apply IH. apply appends_user.
  - rewrite call_WrapFailure.
    apply appends_bind; [|intros r; apply appends_Reject].
    rewrite call_safe. destruct c; try apply IH. apply appends_user.
Qed.

Lemma appends_sendSoon_iter val c : appends (sendSoon_iter val c).
Proof.
  unfold sendSoon_iter. destruct (negb (is_nil c)); [|apply appends_ret].
  apply appends_bind; [apply appends_call|intros _; apply appends_ret].
Qed.

Lemma appends_sendSoon val (cbs : list (@Callback Env)) :
  appends (sendSoon val cbs).
Proof.
  induction cbs as [|cb rest IH]; simpl; [apply appends_ret|].
  apply appends_bind; [apply appends_sendSoon_iter|intros _; exact IH].
Qed.

Lemma delete_insert_same {A} (l : list A) i x :
  delete i (<[i := x]> l) = delete i l.
Proof.
  revert i. induction l as [|a l IH]; intros [|i]; simpl; try reflexivity.
  now rewrite IH.
Qed.

Lemma delete_app_l {A} (l1 l2 : list A) i :
  (i < length l1)%nat -> delete i (l1 ++ l2) = delete i l1 ++ l2.
Proof.
  revert i. induction l1 as [|a l1 IH]; intros [|i] L; simpl in *;
    try lia; [reflexivity|].
  now rewrite IH by lia.
Qed.

(** X9: the goroutine of a dispatch, moved again and again with no other
    move in between, does what the loop of [sendSoon] does: when the
    loop returns, one move per callback and one more end the goroutine,
    the records and the caller's state are those after the loop, and the
    goroutines that the loop started are at the end of the pool; when
    the loop panics, some of these moves end in the same panic with the
    same records and state. *)
Theorem goroutine_moves_are_sendSoon
  (main : @prog Env) val (cbs : list (@Callback Env)) :
  forall h gs (e : Env) i o h' new e',
  gs !! i = Some (GoSendSoon val cbs) ->
  sendSoon val cbs (mkWorld h [] e) = (o, mkWorld h' new e') ->
  match o with
  | Ret _ =>
      interleave (repeat (Go i) (S (length cbs))) main (mkWorld h gs e)
      = Some (Ret tt, is_done main, mkWorld h' (delete i gs ++ new) e')
  | Panic x =>
      exists n gs', (n <= length cbs)%nat
        /\ interleave (repeat (Go i) n) main (mkWorld h gs e)
           = Some (Panic x, is_done main, mkWorld h' gs' e')
  end.
Proof.
  induction cbs as [|cb rest IH]; intros h gs e i o h' new e' Hi HS.
  - simpl in HS. inversion HS; subst. simpl.
    unfold step. simpl. rewrite Hi. unfold with_goroutines. simpl.
    now rewrite app_nil_r.
  - assert (Li : (i < length gs)%nat) by (eapply lookup_lt_Some; eauto).
    simpl in HS. unfold bind in HS.
    destruct (sendSoon_iter val cb (mkWorld h [] e)) as [[[]|x] [h1 n1 e1]]
      eqn:HI.
    + rewrite (appends_sendSoon val rest h1 n1 e1) in HS.
      destruct (sendSoon val rest (mkWorld h1 [] e1)) as [o2 [h2 n2 e2]]
        eqn:HR.
      unfold prepend in HS. simpl in HS. inversion HS; subst.
      assert (Hi' : (<[i := GoSendSoon val rest]> gs ++ n1) !! i
                    = Some (GoSendSoon val rest)).
      { rewrite lookup_app_l by (rewrite length_insert; lia).
        now apply list_lookup_insert_eq. }
      specialize (IH h1 (<[i := GoSendSoon val rest]> gs ++ n1) e1 i
                    o h' n2 e' Hi' HR).
      assert (HStep : step i (mkWorld h gs e)
                = Some (Ret tt,
                        mkWorld h1 (<[i := GoSendSoon val rest]> gs ++ n1) e1)).
      { rewrite (step_sendSoon _ _ _ _ _ _ _ Hi).
        rewrite (appends_sendSoon_iter val cb h _ e), HI. reflexivity. }
      destruct o as [[]|x].
      * change (repeat (Go i) (S (length (cb :: rest))))
          with (Go i :: repeat (Go i) (S (length rest))).
        cbn [interleave]. rewrite HStep, IH.
        rewrite delete_app_l by (rewrite length_insert; lia).
        rewrite delete_insert_same. now rewrite <- app_assoc.
      * destruct IH as (n & gs' & Ln & IH).
        exists (S n), gs'. split; [simpl; lia|].
        cbn [repeat interleave]. now rewrite HStep.
    + inversion HS; subst. exists 1%nat. eexists. split; [simpl; lia|].
      cbn [repeat interleave].
      rewrite (step_sendSoon _ _ _ _ _ _ _ Hi).
      rewrite (appends_sendSoon_iter val cb h _ e), HI. reflexivity.
Qed.

(** ** Registration *)

(** X10: calls of [Then] on a pending promise append their closures to the
    two queues in the order of the calls, start no goroutine and run no
    user function; the [Resolve] that follows hands the whole success
    queue, in this order, to one goroutine. *)
Theorem Thens_register_in_order (p : loc) (cbs : list (Callback * Callback)) :
  forall h gs (e : Env) P,
  h !! p = Some P -> p_state P = pending ->
  let w' := perform_all (Thens p cbs) (mkWorld h gs e) in
  let success := p_success P ++ success_closures (length h) cbs in
  let failure := p_failure P ++ failure_closures (length h) cbs in
  heap w' !! p = Some (mkPromise pending (p_value P) success failure)
  /\ length (heap w') = (length h + length cbs)%nat
  /\ goroutines w' = gs
  /\ env w' = e
  /\ (forall v, exists w'',
        Resolve p v w' = (Ret v, w'')
        /\ goroutines w'' = gs ++ [GoSendSoon v success]).
Proof.
  induction cbs as [|[s f] cbs IH]; intros h gs e P H Hs; cbn zeta.
  - unfold success_closures, failure_closures. simpl. rewrite !app_nil_r.
    assert (E : mkPromise pending (p_value P) (p_success P) (p_failure P) = P)
      by (destruct P; simpl in *; now subst).
    rewrite E. split; [exact H|]. split; [lia|].
    split; [reflexivity|]. split; [reflexivity|]. intros v.
    rewrite (Resolve_pending _ _ _ _ _ _ H Hs). eexists.
    split; reflexivity.
  - assert (H' : (h ++ [zero_Promise]) !! p = Some P)
      by now apply lookup_app_l_Some.
    simpl. unfold bind. rewrite (Then_pending _ _ _ _ _ _ _ H' Hs). simpl.
    specialize (IH (<[p := registered (length h) s f P]> (h ++ [zero_Promise]))
                   gs e (registered (length h) s f P)
                   (lookup_insert_here _ _ _ _ H') Hs).
    cbn zeta in IH. rewrite length_insert, length_app in IH. simpl in IH.
    unfold success_closures, failure_closures in *. rewrite !imap_cons.
    replace (length h + 0)%nat with (length h) by lia.
    simpl in IH. rewrite <- !app_assoc in IH. simpl in IH.
    assert (E1 : imap (fun k sf => WrapSuccess (length h + 1 + k) (fst sf)) cbs
                 = imap ((fun k sf => WrapSuccess (length h + k) (fst sf)) ∘ S)
                     cbs).
    { apply imap_ext. intros k x _. simpl. f_equal. lia. }
    assert (E2 : imap (fun k sf => WrapFailure (length h + 1 + k) (snd sf)) cbs
                 = imap ((fun k sf => WrapFailure (length h + k) (snd sf)) ∘ S)
                     cbs).
    { apply imap_ext. intros k x _. simpl. f_equal. lia. }
    rewrite E1, E2 in IH.
    destruct IH as (I1 & I2 & I3 & I4 & I5).
    split; [exact I1|]. split; [rewrite I2; lia|].
    split; [exact I3|]. split; [exact I4|exact I5].
Qed.

(** X11: while no promise has been settled, nothing happens: after any calls
    of [Then], with moves of goroutines in between, still no goroutine
    has been started, every promise is pending and the state of the
    caller's program is untouched, so no callback has been called. *)
Theorem nothing_happens_while_pending (acts : list (@action Env)) :
  forall w,
  forallb registers_only acts = true -> quiet w ->
  quiet (perform_all acts w) /\ env (perform_all acts w) = env w.
Proof.
  induction acts as [|a acts IH]; intros w HA HQ; simpl; [tauto|].
  simpl in HA. apply andb_true_iff in HA. destruct HA as [Ha HA].
  assert (Step : quiet (snd (perform a w)) /\ env (snd (perform a w)) = env w).
  { destruct w as [h gs e]. destruct HQ as [Hg Hp]. simpl in Hg, Hp.
    subst gs. destruct a as [p s f| | | |i]; try discriminate Ha.
    - unfold perform, bind.
      assert (Hz : forall q Q, (h ++ [zero_Promise]) !! q = Some Q ->
                     p_state Q = pending).
      { intros q Q HqQ. apply lookup_app_Some in HqQ.
        destruct HqQ as [HqQ|[_ HqQ]]; [eauto|].
        destruct (q - length h)%nat; simpl in HqQ; [|discriminate].
        now inversion HqQ. }
      destruct ((h ++ [zero_Promise]) !! p) as [P|] eqn:H.
      + rewrite (Then_pending _ _ _ _ _ _ _ H (Hz _ _ H)). simpl.
        split; [|reflexivity]. split; [reflexivity|]. simpl.
        intros q Q HqQ. destruct (decide (p = q)) as [->|N].
        * rewrite (lookup_insert_here _ _ _ _ H) in HqQ.
          inversion HqQ; subst. simpl. eauto.
        * rewrite list_lookup_insert_ne in HqQ by exact N. eauto.
      + rewrite (Then_nil _ _ _ _ _ _ H). simpl.
        split; [|reflexivity]. split; [reflexivity|exact Hz].
    - unfold perform, step. simpl. split; [|reflexivity].
      split; [reflexivity|exact Hp]. }
  destruct Step as [SQ SE].
  destruct (IH _ HA SQ) as [IQ IE]. split; [exact IQ|congruence].
Qed.

(** ** The states of the promises of a program *)

Section Invariant.

(** An invariant of the world that the three operations, the start of a
    goroutine and the calls of user functions keep is kept by every
    callback, every started goroutine and every program. *)
Variable I : @World Env -> Prop.
Hypothesis I_Resolve : forall p v, keeps I (@Resolve Env p v).
Hypothesis I_Reject : forall p v, keeps I (@Reject Env p v).
Hypothesis I_Then : forall p s f, keeps I (@Then Env p s f).
Hypothesis I_user : forall A (f : Env -> outcome A * Env), keeps I (user f).
Hypothesis I_pool : forall h gs gs' (e : Env),
  I (mkWorld h gs e) -> I (mkWorld h gs' e).
Hypothesis I_new : keeps I (@new_Promise Env).

Lemma keeps_ret {A} (a : A) : keeps I (@ret Env A a).
Proof. intros w H. exact H. Qed.

Lemma keeps_lift {A} (o : outcome A) : keeps I (@lift Env A o).
Proof. intros w H. exact H. Qed.

Lemma keeps_bind {A B} (m : @M Env A) (k : A -> @M Env B) :
  keeps I m -> (forall a, keeps I (k a)) -> keeps I (bind m k).
Proof.
  intros Hm Hk w H. unfold bind. specialize (Hm w H).
  destruct (m w) as [[a|x] w1]; simpl in *; [apply Hk; exact Hm|exact Hm].
Qed.

Lemma keeps_deferred_recover handler (body : @M Env any) :
  (forall x, keeps I (handler x)) -> keeps I body ->
  keeps I (deferred_recover handler body).
Proof.
  intros Hh Hb w H. unfold deferred_recover. specialize (Hb w H).
  destruct (body w) as [[v|x] w1]; simpl in *; [exact Hb|].
  pose proof (Hh x w1 Hb) as Hx.
  destruct x; try exact Hb;
    destruct (handler _ w1) as [[?|?] ?]; exact Hx.
Qed.

Lemma keeps_call c : forall val, keeps I (call c val).
Proof.
  induction c as [|f|p c IH|p c IH]; intros val.
  - intros w H. exact H.
  - apply I_user.
  - rewrite call_WrapSuccess. apply keeps_deferred_recover.
    + intros x. apply I_Reject.
    + apply keeps_bind; [|intros r; apply I_Resolve].
      rewrite call_safe. destruct c; try apply IH. apply I_user.
  - rewrite call_WrapFailure.
    apply keeps_bind; [|intros r; apply I_Reject].
    rewrite call_safe. destruct c; try apply IH. apply I_user.
Qed.

Lemma keeps_sendSoon_iter val c : keeps I (sendSoon_iter val c).
Proof.
  unfold sendSoon_iter. destruct (negb (is_nil c)); [|apply keeps_ret].
  apply keeps_bind; [apply keeps_call|intros _; apply keeps_ret].
Qed.

Lemma keeps_Promisify_go p f args : keeps I (Promisify_go p f args).
Proof.
  unfold Promisify_go, Call.
  apply keeps_bind.
  { apply keeps_bind; [apply I_user|intros vals; apply keeps_ret]. }
  intros results. apply keeps_bind; [apply keeps_lift|].
  intros [value err]. destruct (is_VNil err).
  - apply keeps_bind; [apply I_Resolve|intros _; apply keeps_ret].
  - apply keeps_bind; [apply keeps_lift|]. intros msg.
    apply keeps_bind; [apply I_Reject|intros _; apply keeps_ret].
Qed.

Lemma keeps_perform (a : @action Env) w : I w -> I (snd (perform a w)).
Proof.
  intros H. destruct a as [p s f|p v|p v|fn args|i]; unfold perform.
  - apply keeps_bind; [apply I_Then|intros; apply keeps_ret|exact H].
  - apply keeps_bind; [apply I_Resolve|intros; apply keeps_ret|exact H].
  - apply keeps_bind; [apply I_Reject|intros; apply keeps_ret|exact H].
  - apply keeps_bind; [|intros; apply keeps_ret|exact H].
    unfold Promisify. apply keeps_bind; [apply I_new|]. intros p.
    apply keeps_bind; [|intros; apply keeps_ret].
    intros [h gs e] Hw. simpl. eapply I_pool; eauto.
  - destruct w as [h gs e]. unfold step. simpl.
    destruct (gs !! i) as [[val [|cb rest]|p f args]|]; simpl;
      unfold with_goroutines; simpl.
    + eapply I_pool; eauto.
    + apply keeps_sendSoon_iter. eapply I_pool; eauto.
    + apply keeps_Promisify_go. eapply I_pool; eauto.
    + exact H.
Qed.

Lemma keeps_perform_all (acts : list (@action Env)) :
  forall w, I w -> I (perform_all acts w).
Proof.
  induction acts as [|a rest IH]; intros w H; simpl; [exact H|].
  apply IH. apply keeps_perform. exact H.
Qed.

End Invariant.

Lemma valid_states_alloc h gs (e : Env) :
  valid_states (mkWorld h gs e) ->
  valid_states (mkWorld (h ++ [zero_Promise]) gs e).
Proof.
  intros V q Q HqQ. simpl in HqQ. apply lookup_app_Some in HqQ.
  destruct HqQ as [HqQ|[_ HqQ]]; [exact (V _ _ HqQ)|].
  destruct (q - length h)%nat; simpl in HqQ; [|discriminate].
  inversion HqQ. left. reflexivity.
Qed.

Lemma valid_states_insert h gs gs' (e : Env) p Q :
  valid_states (mkWorld h gs e) -> valid_state (p_state Q) ->
  valid_states (mkWorld (<[p := Q]> h) gs' e).
Proof.
  intros V HQ q R HqR. simpl in HqR.
  destruct (decide (p = q)) as [->|N].
  - destruct (h !! q) as [P|] eqn:H.
    + rewrite (lookup_insert_here _ _ _ _ H) in HqR.
      inversion HqR; subst. exact HQ.
    + apply lookup_ge_None_1 in H. rewrite list_insert_ge in HqR by lia.
      exact (V _ _ HqR).
  - rewrite list_lookup_insert_ne in HqR by exact N. exact (V _ _ HqR).
Qed.

(** X12: every promise of a program is pending, fulfilled or rejected at all
    times: from a world where this holds, any calls of the operations
    and of the adapter and any moves of goroutines lead to a world where
    it holds; so the [String] method of the state of a promise never
    panics. *)
Theorem states_stay_valid (acts : list (@action Env)) w :
  valid_states w ->
  valid_states (perform_all acts w)
  /\ forall p P, heap (perform_all acts w) !! p = Some P ->
       exists name, state_String (p_state P) = Ret name.
Proof.
  intros V.
  assert (V' : valid_states (perform_all acts w)).
  { apply (keeps_perform_all valid_states); try exact V.
    - intros p v [h gs e] Hw. destruct (h !! p) as [P|] eqn:H.
      + destruct (decide (p_state P = pending)) as [Hs|Hs].
        * rewrite (Resolve_pending _ _ _ _ _ _ H Hs). simpl.
          eapply valid_states_insert; eauto. right. left. reflexivity.
        * now rewrite (Resolve_settled _ _ _ _ _ _ H Hs).
      + now rewrite (Resolve_nil _ _ _ _ _ H).
    - intros p v [h gs e] Hw. destruct (h !! p) as [P|] eqn:H.
      + destruct (decide (p_state P = pending)) as [Hs|Hs].
        * rewrite (Reject_pending _ _ _ _ _ _ H Hs). simpl.
          eapply valid_states_insert; eauto. right. right. reflexivity.
        * now rewrite (Reject_settled _ _ _ _ _ _ H Hs).
      + now rewrite (Reject_nil _ _ _ _ _ H).
    - intros p s f [h gs e] Hw.
      pose proof (valid_states_alloc _ _ _ Hw) as Hw'.
      destruct ((h ++ [zero_Promise]) !! p) as [P|] eqn:H.
      + destruct (decide (p_state P = pending)) as [Hs|Hs].
        * rewrite (Then_pending _ _ _ _ _ _ _ H Hs). simpl.
          eapply valid_states_insert; eauto. simpl. exact (Hw' _ _ H).
        * rewrite (Then_settled _ _ _ _ _ _ _ H Hs). simpl.
          eapply valid_states_insert; eauto. simpl. exact (Hw' _ _ H).
      + now rewrite (Then_nil _ _ _ _ _ _ H).
    - intros A f [h gs e] Hw. unfold user. simpl. destruct (f e). exact Hw.
    - intros h gs gs' e Hw. exact Hw.
    - intros [h gs e] Hw. simpl. now apply valid_states_alloc. }
  split; [exact V'|]. intros p P H.
  destruct (V' _ _ H) as [E|[E|E]]; rewrite E; eexists; reflexivity.
Qed.

(** X13: a second settlement tells the state it found: after a [Resolve]
    that returned, every [Resolve] and [Reject] on the promise panics
    with the error whose text ends in the name that [String] gives for
    [fulfilled]; after a [Reject] that returned, in that for
    [rejected]. *)
Theorem second_settlement_names_state (p : loc) (v : any) w r w1 :
  (Resolve p v w = (Ret r, w1) ->
   forall v',
     Resolve p v' w1
     = (Panic (VError
          "Cannot change p promise that isn't pending: fulfilled"), w1)
     /\ Reject p v' w1
        = (Panic (VError
             "Cannot change p promise that isn't pending: fulfilled"), w1))
  /\ (Reject p v w = (Ret r, w1) ->
      forall v',
        Resolve p v' w1
        = (Panic (VError
             "Cannot change p promise that isn't pending: rejected"), w1)
        /\ Reject p v' w1
           = (Panic (VError
                "Cannot change p promise that isn't pending: rejected"), w1)).
Proof.
  destruct w as [h gs e].
  split; intros E v'; destruct (h !! p) as [P|] eqn:H.
  - destruct (decide (p_state P = pending)) as [Hs|Hs].
    + rewrite (Resolve_pending _ _ _ _ _ _ H Hs) in E. inversion E; subst.
      pose proof (lookup_insert_here _ _ _ (mkPromise fulfilled r [] []) H)
        as H1.
      rewrite (Resolve_settled _ _ _ _ _ _ H1) by discriminate.
      rewrite (Reject_settled _ _ _ _ _ _ H1) by discriminate.
      split; reflexivity.
    + rewrite (Resolve_settled _ _ _ _ _ _ H Hs) in E. discriminate.
  - rewrite (Resolve_nil _ _ _ _ _ H) in E. discriminate.
  - destruct (decide (p_state P = pending)) as [Hs|Hs].
    + rewrite (Reject_pending _ _ _ _ _ _ H Hs) in E. inversion E; subst.
      pose proof (lookup_insert_here _ _ _ (mkPromise rejected r [] []) H)
        as H1.
      rewrite (Resolve_settled _ _ _ _ _ _ H1) by discriminate.
      rewrite (Reject_settled _ _ _ _ _ _ H1) by discriminate.
      split; reflexivity.
    + rewrite (Reject_settled _ _ _ _ _ _ H Hs) in E. discriminate.
  - rewrite (Reject_nil _ _ _ _ _ H) in E. discriminate.
Qed.

(** ** The helpers of the adapter *)

(** X14: [unReflectAll] after [reflectAll] gives the arguments back when none
    of them is nil; a nil argument becomes the zero [reflect.Value], on
    which [Interface] panics. *)
Theorem unReflectAll_reflectAll (args : list any) :
  (Forall (fun a => a <> VNil) args ->
   unReflectAll (reflectAll args) = Ret args)
  /\ (In VNil args ->
      unReflectAll (reflectAll args)
      = Panic (VError
          "reflect: call of reflect.Value.Interface on zero Value"))
  /\ length (reflectAll args) = length args.
Proof.
  split; [|split].
  - induction 1 as [|a args Ha _ IH]; [reflexivity|].
    simpl. rewrite IH. destruct a; try reflexivity. contradiction.
  - induction args as [|a args IH]; intros HIn; [destruct HIn|].
    simpl. destruct a; simpl; try reflexivity;
      (destruct HIn as [E|HIn]; [discriminate E|]);
      now rewrite (IH HIn).
  - apply length_map.
Qed.


(** X16: the value that [desliceOne] makes does not tell what the function
    returned: one nil result gives what no result gives, and one result
    that is a slice of two or more values gives what these values give
    as separate results. *)
Theorem desliceOne_is_ambiguous :
  desliceOne [VNil] = desliceOne []
  /\ forall vals, (2 <= length vals)%nat ->
       desliceOne [VSlice vals] = desliceOne vals.
Proof.
  split; [reflexivity|]. intros vals L.
  destruct vals as [|x [|y vals]]; simpl in L; try lia. reflexivity.
Qed.

(** X17: when the promise that [Promisify] returned has been settled by its
    holder before the wrapped function returns, the goroutine of the
    adapter panics with the error of [commit] after the function has
    run, whether the function failed or not; the promise is as it
    was. *)
Theorem adapter_on_settled_promise
  h gs (e e' : Env) (p : loc) P f args outs x :
  h !! p = Some P -> p_state P <> pending ->
  run f (reflectAll args) e
  = (Ret (if hasLastError (Type_ f) then outs ++ [x] else outs), e') ->
  length (if hasLastError (Type_ f) then outs ++ [x] else outs)
  = NumOut (Type_ f) ->
  x = VNil \/ (exists msg, x = VError msg) ->
  Promisify_go p f args (mkWorld h gs e)
  = (Panic (not_pending (p_state P)), mkWorld h gs e').
Proof.
  intros H Hs R E Hx. unfold Promisify_go, bind at 1.
  rewrite (Call_returns _ _ _ _ _ _ _ R).
  unfold bind at 1, lift.
  destruct (hasLastError (Type_ f)) eqn:L.
  - destruct (results_with_failure_channel f outs x L E) as (ts & Ets & Z).
    rewrite Z. destruct Hx as [->|[msg ->]].
    + rewrite (splitResults_no_failure _ _ Ets). simpl. unfold bind.
      now rewrite (Resolve_settled _ _ _ _ _ _ H Hs).
    + rewrite (splitResults_failure _ _ _ Ets). simpl. unfold bind. simpl.
      now rewrite (Reject_settled _ _ _ _ _ _ H Hs).
  - rewrite (splitResults_plain _ _ (eq_sym E)). simpl. unfold bind.
    now rewrite (Resolve_settled _ _ _ _ _ _ H Hs).
Qed.

(** ** The adapter and [Then] together *)

Lemma hasLastError_single (t : FuncType) (t0 : gotype) :
  Out_ t = [t0] -> t0 <> errorType -> hasLastError t = false.
Proof.
  intros E N. unfold hasLastError, NumOut, Out. rewrite E. simpl.
  now apply bool_decide_eq_false.
Qed.

Lemma Promisify_go_single h gs (e e1 : Env) p P fn args t v :
  h !! p = Some P -> p_state P = pending ->
  Out_ (Type_ fn) = [t] -> t <> errorType ->
  run fn (reflectAll args) e = (Ret [v], e1) ->
  Promisify_go p fn args (mkWorld h gs e)
  = (Ret tt, mkWorld (<[p := mkPromise fulfilled v [] []]> h)
                     (gs ++ [GoSendSoon v (p_success P)]) e1).
Proof.
  intros H Hs O N R.
  eapply Promisify_go_fulfils; eauto.
  - apply Call_returns. exact R.
  - rewrite (hasLastError_single _ _ O N), O.
    apply (splitResults_plain [t] [v]). reflexivity.
Qed.

(** X18: for a function with one result that is not a failure channel, the
    success callback given to [Then] on the promise of the adapter is
    called with the result of the function, and its own result fulfils
    the child, whether [Then] is called before the goroutine of the
    adapter has run or after. *)
Theorem adapter_then_in_either_order
  (fn : @Func Env) args (s : any -> Env -> outcome any * Env)
  (g : @Callback Env) t v r (e e1 e2 : Env) :
  Out_ (Type_ fn) = [t] -> t <> errorType ->
  run fn (reflectAll args) e = (Ret [v], e1) ->
  s v e1 = (Ret r, e2) ->
  forall moves,
    moves = [Main; Main; Go 0; Go 0] \/ moves = [Main; Go 0; Main; Go 1] ->
    exists w,
      interleave moves (promisify_then fn args (Fn s) g) (start e)
      = Some (Ret tt, true, w)
      /\ heap w = [mkPromise fulfilled v [] []; mkPromise fulfilled r [] []]
      /\ env w = e2.
Proof.
  intros O N R S moves [->| ->]; unfold promisify_then, start;
    cbn [interleave].
  - rewrite Promisify_allocates. cbn [length app].
    rewrite (Then_pending [zero_Promise] _ _ 0 zero_Promise)
      by reflexivity.
    unfold step. cbn [goroutines lookup list_lookup]. simpl delete.
    unfold with_goroutines. cbn [heap env].
    erewrite Promisify_go_single; [|reflexivity|reflexivity|eauto..].
    cbn [insert list_insert app registered p_success set_success set_failure
         p_failure zero_Promise p_state p_value length].
    cbn [goroutines lookup list_lookup heap env].
    erewrite sendSoon_iter_returns;
      [|reflexivity
       |eapply call_wrapped_returns;
          [simpl; unfold user; simpl; rewrite S; reflexivity
          |reflexivity|reflexivity]].
    eexists. split; [reflexivity|]. split; reflexivity.
  - rewrite Promisify_allocates. cbn [length app].
    unfold step at 1. cbn [goroutines lookup list_lookup]. simpl delete.
    unfold with_goroutines. cbn [heap env].
    erewrite Promisify_go_single; [|reflexivity|reflexivity|eauto..].
    cbn [insert list_insert app p_success zero_Promise].
    rewrite (Then_settled_drained
               [mkPromise fulfilled v [] []] _ _ 0 fulfilled v)
      by (reflexivity || (left; reflexivity)).
    cbn [length app Z.eqb fulfilled Pos.eqb].
    unfold step. cbn [goroutines lookup list_lookup heap env insert
                      list_insert].
    unfold with_goroutines. cbn [heap env goroutines].
    erewrite sendSoon_iter_returns;
      [|reflexivity
       |eapply call_wrapped_returns;
          [simpl; unfold user; simpl; rewrite S; reflexivity
          |reflexivity|reflexivity]].
    eexists. split; [reflexivity|]. split; reflexivity.
Qed.

End Further.

(** ** Instances of the further properties *)

Lemma settlement_is_local_witness :
  env (mkWorld [mkPromise fulfilled (VInt 1) [] []]
               [GoSendSoon (VInt 1) []] tt)
  = env (mkWorld [zero_Promise] [] tt).
Proof.
  exact (proj1 (settlement_is_local 0 (VInt 1)
                  (mkWorld [zero_Promise] [] tt) (Ret (VInt 1))
                  (mkWorld [mkPromise fulfilled (VInt 1) [] []]
                           [GoSendSoon (VInt 1) []] tt)
                  (or_introl eq_refl))).
Defined.

Lemma Then_is_local_witness :
  length (heap (mkWorld [mkPromise pending VNil [WrapSuccess 1 Nil]
                                   [WrapFailure 1 Nil];
                         zero_Promise] [] tt))
  = S (length (heap (mkWorld [zero_Promise] [] tt))).
Proof.
  exact (proj1 (proj2 (Then_is_local 0 Nil Nil
                  (mkWorld [zero_Promise] [] tt) (Ret 1%nat)
                  (mkWorld [mkPromise pending VNil [WrapSuccess 1 Nil]
                                      [WrapFailure 1 Nil];
                            zero_Promise] [] tt)
                  eq_refl))).
Defined.

Lemma wrapped_callbacks_settle_child_witness :
  call (WrapSuccess 0 Nil) (VInt 1) (mkWorld [zero_Promise] [] tt)
  = (Ret (VInt 1),
     mkWorld [mkPromise fulfilled (VInt 1) [] []]
             [GoSendSoon (VInt 1) []] tt).
Proof.
  exact (proj1 (wrapped_callbacks_settle_child Nil 0 (VInt 1)
                  (mkWorld [zero_Promise] [] tt) (VInt 1)
                  [zero_Promise] [] tt zero_Promise
                  eq_refl eq_refl eq_refl)).
Defined.

Lemma wrapped_callbacks_on_settled_child_witness :
  call (WrapSuccess 0 Nil) (VInt 1)
    (mkWorld [mkPromise rejected (VInt 3) [] []] [] tt)
  = (Panic (not_pending rejected),
     mkWorld [mkPromise rejected (VInt 3) [] []] [] tt).
Proof.
  exact (proj1 (wrapped_callbacks_on_settled_child Nil 0 (VInt 1)
                  (mkWorld [mkPromise rejected (VInt 3) [] []] [] tt)
                  (VInt 1) [mkPromise rejected (VInt 3) [] []] [] tt
                  (mkPromise rejected (VInt 3) [] [])
                  eq_refl eq_refl ltac:(discriminate))).
Defined.

Lemma Then_on_settled_dispatches_new_pair_witness :
  Then 0 (Fn (@panicIfCalled unit)) Nil
    (mkWorld [mkPromise rejected (VInt 1) [] []] [] tt)
  = (Ret 1%nat,
     mkWorld [mkPromise rejected (VInt 1) [] []; zero_Promise]
             [GoSendSoon (VInt 1) [WrapFailure 1 Nil]] tt).
Proof.
  exact (Then_on_settled_dispatches_new_pair
           [mkPromise rejected (VInt 1) [] []] [] tt 0 rejected (VInt 1)
           (Fn panicIfCalled) Nil eq_refl (or_intror eq_refl)).
Defined.

Lemma late_Then_is_served_witness :
  exists w1 w2 : @World Log,
    Then 0 (Fn (process 1)) Nil
      (mkWorld [mkPromise fulfilled (VInt 1) [] []] [] [])
    = (Ret 1%nat, w1)
    /\ env w1 = []
    /\ step 0 w1 = Some (Ret tt, w2)
    /\ env w2 = [(1%nat, 1)]
    /\ heap w2 !! 1%nat = Some (mkPromise fulfilled (VInt 2) [] []).
Proof.
  exact (proj1 (late_Then_is_served
                  [mkPromise fulfilled (VInt 1) [] []] [] [] [(1%nat, 1)]
                  0 (VInt 1) (process 1) Nil (VInt 2) eq_refl) eq_refl).
Defined.

Lemma goroutine_moves_are_sendSoon_witness :
  interleave (repeat (Go 0) 2) Done
    (mkWorld [zero_Promise] [GoSendSoon (VInt 1) [WrapSuccess 0 Nil]] tt)
  = Some (Ret tt, true,
          mkWorld [mkPromise fulfilled (VInt 1) [] []]
                  [GoSendSoon (VInt 1) []] tt).
Proof.
  exact (goroutine_moves_are_sendSoon Done (VInt 1) [WrapSuccess 0 Nil]
           [zero_Promise] [GoSendSoon (VInt 1) [WrapSuccess 0 Nil]] tt 0
           (Ret tt) [mkPromise fulfilled (VInt 1) [] []]
           [GoSendSoon (VInt 1) []] tt eq_refl eq_refl).
Defined.

Lemma Thens_register_in_order_witness :
  heap (perform_all (Thens 0 [(Fn (@panicIfCalled unit), Nil); (Nil, Nil)])
          (mkWorld [zero_Promise] [] tt)) !! 0%nat
  = Some (mkPromise pending VNil
            [WrapSuccess 1 (Fn panicIfCalled); WrapSuccess 2 Nil]
            [WrapFailure 1 Nil; WrapFailure 2 Nil]).
Proof.
  exact (proj1 (Thens_register_in_order 0
                  [(Fn (@panicIfCalled unit), Nil); (Nil, Nil)]
                  [zero_Promise] [] tt zero_Promise eq_refl eq_refl)).
Defined.

Lemma nothing_happens_while_pending_witness :
  quiet (perform_all [DoThen 0 (Fn (@panicIfCalled unit)) Nil; DoStep 0]
           (mkWorld [zero_Promise] [] tt)).
Proof.
  refine (proj1 (nothing_happens_while_pending
                   [DoThen 0 (Fn (@panicIfCalled unit)) Nil; DoStep 0]
                   (mkWorld [zero_Promise] [] tt) eq_refl _)).
  split; [reflexivity|].
  intros [|p] P H; simpl in H; [|discriminate]. now inversion H.
Defined.

Lemma states_stay_valid_witness :
  valid_states (perform_all [DoResolve 0 (VInt 1); DoReject 0 (VInt 2)]
                  (mkWorld [@zero_Promise unit] [] tt)).
Proof.
  refine (proj1 (states_stay_valid
                   [DoResolve 0 (VInt 1); DoReject 0 (VInt 2)]
                   (mkWorld [zero_Promise] [] tt) _)).
  intros [|p] P H; simpl in H; [|discriminate].
  inversion H. left. reflexivity.
Defined.


Lemma adapter_on_settled_promise_witness :
  Promisify_go 0 boom []
    (mkWorld [mkPromise fulfilled (VInt 1) [] []] [] tt)
  = (Panic (not_pending fulfilled),
     mkWorld [mkPromise fulfilled (VInt 1) [] []] [] tt).
Proof.
  exact (adapter_on_settled_promise
           [mkPromise fulfilled (VInt 1) [] []] [] tt tt 0
           (mkPromise fulfilled (VInt 1) [] []) boom [] [VInt 7]
           (VError "boom") eq_refl ltac:(discriminate) eq_refl eq_refl
           (or_intror (ex_intro _ "boom" eq_refl))).
Defined.

Lemma adapter_then_in_either_order_witness :
  exists w : @World Log,
    interleave [Main; Go 0; Main; Go 1]
      (promisify_then one [] (Fn (process 1)) Nil) (start [])
    = Some (Ret tt, true, w)
    /\ heap w = [mkPromise fulfilled (VInt 1) [] [];
                 mkPromise fulfilled (VInt 2) [] []]
    /\ env w = [(1%nat, 1)].
Proof.
  exact (adapter_then_in_either_order one [] (process 1) Nil TInt
           (VInt 1) (VInt 2) [] [] [(1%nat, 1)]
           eq_refl ltac:(discriminate) eq_refl eq_refl
           [Main; Go 0; Main; Go 1] (or_intror eq_refl)).
Defined.

Lemma rejected_chain_observes_1_2_3_witness :
  let w := mkWorld [mkPromise rejected (VInt 1) [] [];
                    mkPromise rejected (VInt 2) [] [];
                    mkPromise rejected (VInt 3) [] [];
                    mkPromise rejected (VInt 4) [] []] [] seen_1_2_3 in
  interleave ([Main; Main; Main; Main; Main] ++ repeat (Go 0) 7)
    chain_test_rejected (start [])
  = Some (Ret tt, true, w)
  /\ env w = seen_1_2_3.
Proof.
  intros w.
  assert (E : interleave ([Main; Main; Main; Main; Main] ++ repeat (Go 0) 7)
                chain_test_rejected (start [])
              = Some (Ret tt, true, w))
    by (vm_compute; reflexivity).
  split; [exact E|].
  destruct (rejected_chain_observes_1_2_3 _ _ _ _ E) as (_ & _ & H).
  apply H; reflexivity.
Defined.
